(** * Vacuum-world planner: state model, successor rule, DFS and UCS

    A shallow embedding of [planner.py].  The planning state is the pair
    of the agent's cell and the frozenset of cells that are still dirty;
    the two searches are [while] loops over a frontier, embedded as a step
    function iterated under a fuel bound that is shown to suffice. *)

From Stdlib Require Import Ascii.
From stdpp Require Import gmap list strings pretty.

Local Open Scope Z_scope.

(** ** Data model *)

(** A cell is a pair of Python integers [(row, column)]. *)
Abbreviation Coord := (Z * Z)%type.

(** A state is [((r, c), dirty)] with [dirty] a frozenset of cells. *)
Abbreviation State := ((Z * Z) * gset (Z * Z))%type.

(** The action tokens ['V'], ['N'], ['S'], ['E'], ['W']. *)
Inductive Action : Set := Vac | North | South | East | West.

#[global] Instance Action_eq_dec : EqDecision Action.
Proof. solve_decision. Defined.

(** What a search returns: [(plan, nodes_generated, nodes_expanded)], the
    plan being [None] when the frontier ran empty. *)
Abbreviation result := (option (list Action) * nat * nat)%type.

(** [MOVE_DIRS]: a dict, iterated in insertion order. *)
Definition MOVE_DIRS : list (Action * (Z * Z)) :=
  [ (North, (-1, 0)); (South, (1, 0)); (East, (0, 1)); (West, (0, -1)) ].

(** ** Transition model *)

(** [successors]: the generator's yields, in order. *)
Definition successors (state : State) (rows cols : Z) (blocked : gset Coord)
  : list (Action * State) :=
  let '((r, c), dirty) := state in
  (if decide ((r, c) ∈ dirty)
   then [ (Vac, ((r, c), filter (λ d, d ≠ (r, c)) dirty)) ]
   else [])
  ++ flat_map
       (λ '(act, (dr, dc)),
          let nr := r + dr in
          let nc := c + dc in
          if decide (0 ≤ nr < rows ∧ 0 ≤ nc < cols ∧ (nr, nc) ∉ blocked)
          then [ (act, ((nr, nc), dirty)) ]
          else [])
       MOVE_DIRS.

Definition is_goal (state : State) : bool :=
  bool_decide (size state.2 = 0%nat).

(** ** Loops under fuel *)

Section Loop.
Context {St Res : Type}.
Variable step : St → Res + St.

(** One [while] loop: [inl] leaves the loop with a value, [inr] goes
    round again.  [None] only when the fuel is used up. *)
Fixpoint loop (fuel : nat) (st : St) : option Res :=
  match fuel with
  | O => None
  | S fuel' =>
      match step st with
      | inl r => Some r
      | inr st' => loop fuel' st'
      end
  end.

(** The loop state after [n] completed iterations, if the loop is still
    running then. *)
Fixpoint iterate (n : nat) (st : St) : option St :=
  match n with
  | O => Some st
  | S n' =>
      match step st with
      | inl _ => None
      | inr st' => iterate n' st'
      end
  end.
End Loop.

(** ** Depth-first search *)

Definition ACTION_ORDER : list Action := [Vac; North; South; East; West].

(** [list.index]: position of the first occurrence. *)
Fixpoint index (a : Action) (l : list Action) : option nat :=
  match l with
  | [] => None
  | b :: l' => if decide (a = b) then Some O else S <$> index a l'
  end.

(** The sort key [ACTION_ORDER.index(ap[0]) if ap[0] in ACTION_ORDER else 999]. *)
Definition action_key (ap : Action * State) : nat :=
  match index ap.1 ACTION_ORDER with
  | Some i => i
  | None => 999%nat
  end.

(** [list.sort(key=...)] is a stable sort; stable insertion sort by key. *)
Section SortByKey.
Context {A : Type}.
Variable key : A → nat.

Fixpoint insert_by_key (x : A) (l : list A) : list A :=
  match l with
  | [] => [x]
  | y :: l' =>
      if (key y <=? key x)%nat then y :: insert_by_key x l' else x :: y :: l'
  end.

Definition sort_by_key (l : list A) : list A :=
  fold_left (λ acc x, insert_by_key x acc) l [].
End SortByKey.

(** The local variables of [depth_first_search].  The Python list [stack]
    is pushed and popped at its end; here that end is the head. *)
Record dfs_state : Type := DfsState {
  dfs_stack : list (State * list Action);
  dfs_visited : gset State;
  dfs_generated : nat;
  dfs_expanded : nat
}.

(** The [for] loop pushing the successors. *)
Definition dfs_push (path : list Action)
    (acc : nat * list (State * list Action)) (ap : Action * State)
  : nat * list (State * list Action) :=
  (S acc.1, (ap.2, path ++ [ap.1]) :: acc.2).

(** One iteration of [while stack:], the loop exit included. *)
Definition dfs_step (rows cols : Z) (blocked : gset Coord) (st : dfs_state)
  : result + dfs_state :=
  match dfs_stack st with
  | [] => inl (None, dfs_generated st, dfs_expanded st)
  | (state, path) :: stack =>
      if decide (state ∈ dfs_visited st) then
        inr (DfsState stack (dfs_visited st) (dfs_generated st) (dfs_expanded st))
      else
        let visited := {[ state ]} ∪ dfs_visited st in
        let nodes_expanded := S (dfs_expanded st) in
        if is_goal state then
          inl (Some path, dfs_generated st, nodes_expanded)
        else
          let succs := sort_by_key action_key (successors state rows cols blocked) in
          let pushed := fold_left (dfs_push path) (rev succs) (dfs_generated st, stack) in
          inr (DfsState pushed.2 visited pushed.1 nodes_expanded)
  end.

Definition dfs_init (start : Coord) (dirty : gset Coord) : dfs_state :=
  DfsState [ ((start, dirty), []) ] ∅ 1 0.

(** ** Uniform-cost search *)

(** A frontier entry [(g, seq, state, path)]. *)
Record entry : Type := Entry {
  e_cost : nat;
  e_seq : nat;
  e_state : State;
  e_path : list Action
}.

(** Tuple comparison on the first two components.  The sequence numbers
    are pairwise distinct, so the comparison never reaches the state. *)
Definition entry_leb (e1 e2 : entry) : bool :=
  (e_cost e1 <? e_cost e2)%nat
  || ((e_cost e1 =? e_cost e2)%nat && (e_seq e1 <=? e_seq e2)%nat).

(** [heapq] by its contract: a bag of entries, [heappop] removes and
    returns the least one. *)
Definition heappush (h : list entry) (e : entry) : list entry := e :: h.

Fixpoint heappop (h : list entry) : option (entry * list entry) :=
  match h with
  | [] => None
  | e :: h' =>
      match heappop h' with
      | None => Some (e, [])
      | Some (m, rest) =>
          if entry_leb e m then Some (e, h') else Some (m, e :: rest)
      end
  end.

(** The local variables of [uniform_cost_search]; [ucs_counter] is the
    next value of [itertools.count()]. *)
Record ucs_state : Type := UcsState {
  ucs_frontier : list entry;
  ucs_g_best : gmap State nat;
  ucs_counter : nat;
  ucs_generated : nat;
  ucs_expanded : nat
}.

(** How an iteration of the loop can leave it: with the returned triple,
    or with the [KeyError] of a failed [g_best[state]]. *)
Inductive outcome : Type :=
| Returned (r : result)
| KeyError.

(** The body of [for act, nxt in successors(...)]. *)
Definition ucs_relax (g : nat) (path : list Action)
    (st : ucs_state) (succ : Action * State) : ucs_state :=
  let '(act, nxt) := succ in
  let g2 := (g + 1)%nat in
  let prev := ucs_g_best st !! nxt in
  if match prev with None => true | Some p => (g2 <? p)%nat end then
    UcsState
      (heappush (ucs_frontier st) (Entry g2 (ucs_counter st) nxt (path ++ [act])))
      (<[ nxt := g2 ]> (ucs_g_best st))
      (S (ucs_counter st))
      (S (ucs_generated st))
      (ucs_expanded st)
  else st.

(** One iteration of [while frontier:], the loop exit included. *)
Definition ucs_step (rows cols : Z) (blocked : gset Coord) (st : ucs_state)
  : outcome + ucs_state :=
  match heappop (ucs_frontier st) with
  | None => inl (Returned (None, ucs_generated st, ucs_expanded st))
  | Some (Entry g _ state path, frontier) =>
      match ucs_g_best st !! state with
      | None => inl KeyError
      | Some best =>
          if (best <? g)%nat then
            inr (UcsState frontier (ucs_g_best st) (ucs_counter st)
                   (ucs_generated st) (ucs_expanded st))
          else
            let nodes_expanded := S (ucs_expanded st) in
            if is_goal state then
              inl (Returned (Some path, ucs_generated st, nodes_expanded))
            else
              inr (fold_left (ucs_relax g path)
                     (successors state rows cols blocked)
                     (UcsState frontier (ucs_g_best st) (ucs_counter st)
                        (ucs_generated st) nodes_expanded))
      end
  end.

Definition ucs_init (start : Coord) (dirty : gset Coord) : ucs_state :=
  UcsState [ Entry 0 0 (start, dirty) [] ] {[ (start, dirty) := 0%nat ]} 1 1 0.

(** ** The state space, and the fuel it affords *)

Definition grid_cells (rows cols : Z) : list Coord :=
  r ← seqZ 0 rows; c ← seqZ 0 cols; [ (r, c) ].

Fixpoint subsets (l : list Coord) : list (gset Coord) :=
  match l with
  | [] => [ ∅ ]
  | x :: l' => subsets l' ++ (union {[ x ]} <$> subsets l')
  end.

(** Every state a search can meet: the agent on the start cell or on a
    cell of the grid, the dirt a subset of the initial dirt. *)
Definition state_space (rows cols : Z) (start : Coord) (dirty : gset Coord)
  : gset State :=
  list_to_set
    (p ← start :: grid_cells rows cols; d ← subsets (elements dirty); [ (p, d) ]).

(** Each state is expanded at most once and has at most five successors. *)
Definition search_fuel (rows cols : Z) (start : Coord) (dirty : gset Coord) : nat :=
  (6 * size (state_space rows cols start dirty) + 2)%nat.

Definition depth_first_search (rows cols : Z) (blocked : gset Coord)
    (start : Coord) (dirty : gset Coord) : option result :=
  loop (dfs_step rows cols blocked)
    (search_fuel rows cols start dirty) (dfs_init start dirty).

Definition uniform_cost_search (rows cols : Z) (blocked : gset Coord)
    (start : Coord) (dirty : gset Coord) : option outcome :=
  loop (ucs_step rows cols blocked)
    (search_fuel rows cols start dirty) (ucs_init start dirty).

(** ** Observations on a run *)

(** The state this iteration counts as expanded, if it counts one. *)
Definition dfs_expands (st : dfs_state) : option State :=
  match dfs_stack st with
  | (state, _) :: _ =>
      if decide (state ∈ dfs_visited st) then None else Some state
  | [] => None
  end.

Definition ucs_expands (st : ucs_state) : option State :=
  match heappop (ucs_frontier st) with
  | Some (e, _) =>
      match ucs_g_best st !! e_state e with
      | Some best => if (best <? e_cost e)%nat then None else Some (e_state e)
      | None => None
      end
  | None => None
  end.

Section Trace.
Context {St Res : Type}.
Variable step : St → Res + St.
Variable expands : St → option State.

(** The states expanded by the loop, in the order of their expansion. *)
Fixpoint expansion_order (fuel : nat) (st : St) : list State :=
  match fuel with
  | O => []
  | S fuel' =>
      option_list (expands st)
      ++ match step st with
         | inl _ => []
         | inr st' => expansion_order fuel' st'
         end
  end.
End Trace.

Definition dfs_expansion_order (rows cols : Z) (blocked : gset Coord)
    (start : Coord) (dirty : gset Coord) : list State :=
  expansion_order (dfs_step rows cols blocked) dfs_expands
    (search_fuel rows cols start dirty) (dfs_init start dirty).

Definition ucs_expansion_order (rows cols : Z) (blocked : gset Coord)
    (start : Coord) (dirty : gset Coord) : list State :=
  expansion_order (ucs_step rows cols blocked) ucs_expands
    (search_fuel rows cols start dirty) (ucs_init start dirty).

(** [a] is expanded, and before any expansion of [b]. *)
Fixpoint first_index (s : State) (l : list State) : option nat :=
  match l with
  | [] => None
  | x :: l' => if decide (s = x) then Some O else S <$> first_index s l'
  end.

Definition expanded_before (l : list State) (a b : State) : bool :=
  match first_index a l, first_index b l with
  | Some i, Some j => (i <? j)%nat
  | Some _, None => true
  | None, _ => false
  end.

(** ** Plans *)

Fixpoint lookup_action (a : Action) (l : list (Action * State)) : option State :=
  match l with
  | [] => None
  | (b, s) :: l' => if decide (a = b) then Some s else lookup_action a l'
  end.

(** The state an action leads to: the one [successors] pairs it with. *)
Definition apply_action (rows cols : Z) (blocked : gset Coord)
    (s : State) (a : Action) : option State :=
  lookup_action a (successors s rows cols blocked).

(** The state a plan leads to; [None] when one of its actions is not among
    the successors of the state it is applied in. *)
Fixpoint apply_plan (rows cols : Z) (blocked : gset Coord)
    (s : State) (plan : list Action) : option State :=
  match plan with
  | [] => Some s
  | a :: plan' =>
      match apply_action rows cols blocked s a with
      | Some s' => apply_plan rows cols blocked s' plan'
      | None => None
      end
  end.

(** The goal can be reached from [s]. *)
Definition goal_reachable (rows cols : Z) (blocked : gset Coord) (s : State) : Prop :=
  ∃ plan t, apply_plan rows cols blocked s plan = Some t ∧ t.2 = ∅.

(** ** The successor rule as the specification words it *)

Definition in_bounds (rows cols : Z) (p : Coord) : Prop :=
  0 ≤ p.1 < rows ∧ 0 ≤ p.2 < cols.

Definition destination (a : Action) (p : Coord) : Coord :=
  match a with
  | Vac => p
  | North => (p.1 - 1, p.2)
  | South => (p.1 + 1, p.2)
  | East => (p.1, p.2 + 1)
  | West => (p.1, p.2 - 1)
  end.

(** The precondition of an action. *)
Definition applicable (rows cols : Z) (blocked : gset Coord)
    (s : State) (a : Action) : Prop :=
  match a with
  | Vac => s.1 ∈ s.2
  | _ => in_bounds rows cols (destination a s.1) ∧ destination a s.1 ∉ blocked
  end.

#[global] Instance applicable_dec rows cols blocked s a :
  Decision (applicable rows cols blocked s a).
Proof. destruct a; unfold applicable, in_bounds; apply _. Defined.

(** The state an action produces. *)
Definition outcome_of (s : State) (a : Action) : State :=
  match a with
  | Vac => (s.1, s.2 ∖ {[ s.1 ]})
  | _ => (destination a s.1, s.2)
  end.

Definition offer (rows cols : Z) (blocked : gset Coord) (s : State) (a : Action)
  : list (Action * State) :=
  if decide (applicable rows cols blocked s a) then [ (a, outcome_of s a) ] else [].

Definition legal_successors (rows cols : Z) (blocked : gset Coord) (s : State)
  : list (Action * State) :=
  offer rows cols blocked s Vac ++ offer rows cols blocked s North
  ++ offer rows cols blocked s South ++ offer rows cols blocked s East
  ++ offer rows cols blocked s West.

(** ** Measures of a plan *)

(** How many of the plan's actions are ['V']. *)
Definition vacuums (plan : list Action) : nat :=
  length (filter (λ a, a = Vac) plan).

(** The states a plan passes through, the one it starts in included; it
    stops where an action does not apply. *)
Fixpoint plan_states (rows cols : Z) (blocked : gset Coord)
    (s : State) (plan : list Action) : list State :=
  s :: match plan with
       | [] => []
       | a :: plan' =>
           match apply_action rows cols blocked s a with
           | Some s' => plan_states rows cols blocked s' plan'
           | None => []
           end
       end.

(** The states a plan is in before each of its actions. *)
Fixpoint states_before (rows cols : Z) (blocked : gset Coord)
    (s : State) (plan : list Action) : list State :=
  match plan with
  | [] => []
  | a :: plan' =>
      s :: match apply_action rows cols blocked s a with
           | Some s' => states_before rows cols blocked s' plan'
           | None => []
           end
  end.

(** The number of states there can be: a cell of the grid or the start
    cell, and a subset of the initial dirt. *)
Definition space_bound (rows cols : Z) (dirty : gset Coord) : nat :=
  ((Z.to_nat rows * Z.to_nat cols + 1) * 2 ^ size dirty)%nat.

(** ** What the counters count *)

Section Tallies.
Variables (rows cols : Z) (blocked : gset Coord).
Variables (start : Coord) (dirty : gset Coord).

(** Depth-first search expands each visited state once and pushes at most
    five entries per expansion; the states a stacked path has left behind
    are visited, and pairwise distinct. *)
Record dfs_tally (st : dfs_state) : Prop := DfsTally {
  dfs_tally_expanded :
    dfs_expanded st = size (dfs_visited st);
  dfs_tally_generated :
    (dfs_generated st ≤ 1 + 5 * dfs_expanded st)%nat;
  dfs_tally_simple :
    ∀ s p, (s, p) ∈ dfs_stack st →
      NoDup (states_before rows cols blocked (start, dirty) p)
      ∧ ∀ x, x ∈ states_before rows cols blocked (start, dirty) p →
             x ∈ dfs_visited st
}.

Definition dfs_tally_post (r : result) : Prop :=
  (r.1.2 ≤ 1 + 5 * r.2)%nat
  ∧ (r.2 ≤ size (state_space rows cols start dirty))%nat
  ∧ match r.1.1 with
    | Some plan => NoDup (plan_states rows cols blocked (start, dirty) plan)
    | None => True
    end.

(** Uniform-cost search generates each recorded state once, holds no state
    twice on its frontier, and has expanded every entry it has popped. *)
Record ucs_tally (st : ucs_state) : Prop := UcsTally {
  ucs_tally_generated :
    ucs_generated st = size (dom (ucs_g_best st));
  ucs_tally_frontier :
    NoDup (e_state <$> ucs_frontier st);
  ucs_tally_expanded :
    (ucs_expanded st + length (ucs_frontier st))%nat = ucs_generated st
}.

Definition ucs_tally_post (o : outcome) : Prop :=
  match o with
  | KeyError => False
  | Returned (plan, gen, exp) =>
      (gen ≤ size (state_space rows cols start dirty))%nat
      ∧ (plan = None → exp = gen)
  end.
End Tallies.

(** ** Python strings *)

(** A [str] is a sequence of Unicode code points. *)
Abbreviation str := (list N).

(** The code point of an ASCII character, and the [str] an ASCII literal
    of the source denotes. *)
Definition ord (ch : ascii) : N := N_of_ascii ch.

Fixpoint lit (s : string) : str :=
  match s with
  | EmptyString => []
  | String ch s' => ord ch :: lit s'
  end.

(** ** What the interpreter and the file system supply *)

(** The two encodings [parse_world] opens a file with. *)
Inductive codec : Type := Utf8Sig | Utf16.

(** What [with open(path, encoding=...) as f: raw = f.read()] does: it
    yields the decoded text, or raises a [UnicodeError] (bytes that do not
    decode), or raises an [OSError] (no such file, no permission, ...). *)
Inductive read_result : Type :=
| ReadOk (raw : str)
| ReadUnicodeError
| ReadOSError.

(** [decimal] is the decimal digit value of a code point, defined on the
    characters of category Nd: those that [\d] matches and that [int]
    reads.  [max_str_digits] is [sys.get_int_max_str_digits()].
    [read_text] is the file system seen through [open] and [read]. *)
Record platform : Type := Platform {
  decimal : N → option nat;
  max_str_digits : nat;
  read_text : codec → str → read_result
}.

(** The decimal digits of Unicode 14.0, which Python 3.11 has: 66 runs of
    ten code points, of values 0 to 9; each run is given by its zero. *)
Definition decimal_zeros : list N :=
  [ 48; 1632; 1776; 1984; 2406; 2534; 2662; 2790; 2918; 3046; 3174; 3302;
    3430; 3558; 3664; 3792; 3872; 4160; 4240; 6112; 6160; 6470; 6608; 6784;
    6800; 6992; 7088; 7232; 7248; 42528; 43216; 43264; 43472; 43504; 43600;
    44016; 65296; 66720; 68912; 69734; 69872; 69942; 70096; 70384; 70736;
    70864; 71248; 71360; 71472; 71904; 72016; 72784; 73040; 73120; 92768;
    92864; 93008; 120782; 120792; 120802; 120812; 120822; 123200; 123632;
    125264; 130032 ]%N.

Fixpoint decimal_in (zeros : list N) (ch : N) : option nat :=
  match zeros with
  | [] => None
  | z :: zeros' =>
      if ((z <=? ch) && (ch <? z + 10))%N then Some (N.to_nat (ch - z))
      else decimal_in zeros' ch
  end.

Definition unicode_decimal (ch : N) : option nat := decimal_in decimal_zeros ch.

(** ** Reading a world: [parse_world] *)

(** What [parse_world] can raise: the [ValueError]s of its own, with their
    arguments, the one of [int] on an empty literal or on one with too
    many digits, the [IndexError] of [grid_lines[r]], and the errors of
    opening and decoding the file. *)
Inductive parse_error : Type :=
| TooShort
| InvalidLiteral
| RowsMismatch
| RowLength (r : nat) (len : nat) (cols : Z)
| UnknownCell (ch : N) (r c : nat)
| NoStart
| IndexError
| UnicodeError
| OSError.

(** The tuple [(rows, cols, blocked, start, dirty)]. *)
Abbreviation World := (Z * Z * gset (Z * Z) * (Z * Z) * gset (Z * Z))%type.

(** The [try]/[except UnicodeError] at the head of [parse_world]: the file
    is read as UTF-8 with an optional byte order mark, and only when that
    raises a [UnicodeError] is it read again as UTF-16. *)
Definition read_world_file (pf : platform) (path : str) : parse_error + str :=
  match read_text pf Utf8Sig path with
  | ReadOk raw => inr raw
  | ReadOSError => inl OSError
  | ReadUnicodeError =>
      match read_text pf Utf16 path with
      | ReadOk raw => inr raw
      | ReadUnicodeError => inl UnicodeError
      | ReadOSError => inl OSError
      end
  end.

(** The line boundaries of [str.splitlines]. *)
Definition is_linebreak (ch : N) : bool :=
  bool_decide (ch ∈ [10; 11; 12; 13; 28; 29; 30; 133; 8232; 8233]%N).

(** The white space of [str.strip]. *)
Definition is_space (ch : N) : bool :=
  bool_decide
    (ch ∈ [ 9; 10; 11; 12; 13; 28; 29; 30; 31; 32; 133; 160; 5760;
            8192; 8193; 8194; 8195; 8196; 8197; 8198; 8199; 8200; 8201; 8202;
            8232; 8233; 8239; 8287; 12288 ]%N).

(** [str.splitlines]: [line] holds the characters of the line under way.
    A carriage return followed by a line feed is one boundary; a text that
    ends in a boundary has no empty last line. *)
Fixpoint splitlines_from (line : str) (s : str) : list str :=
  match s with
  | [] => if decide (line = []) then [] else [line]
  | ch :: s' =>
      if is_linebreak ch then
        match s' with
        | ch' :: s'' =>
            if decide (ch = 13%N ∧ ch' = 10%N)
            then line :: splitlines_from [] s''
            else line :: splitlines_from [] s'
        | [] => [line]
        end
      else splitlines_from (line ++ [ch]) s'
  end.

Definition splitlines (s : str) : list str := splitlines_from [] s.

Fixpoint lstrip (s : str) : str :=
  match s with
  | [] => []
  | ch :: s' => if is_space ch then lstrip s' else s
  end.

Fixpoint rstrip (s : str) : str :=
  match s with
  | [] => []
  | ch :: s' =>
      match rstrip s' with
      | [] => if is_space ch then [] else [ch]
      | rest => ch :: rest
      end
  end.

Definition strip (s : str) : str := rstrip (lstrip s).

(** [[ln.strip() for ln in raw.splitlines() if ln.strip() != '']]. *)
Definition world_lines (raw : str) : list str :=
  strip <$> filter (λ ln, strip ln ≠ []) (splitlines raw).

(** [re.sub(r'\D', '', s)]. *)
Definition remove_non_digits (pf : platform) (s : str) : str :=
  filter (λ ch, is_Some (decimal pf ch)) s.

Fixpoint int_digits (pf : platform) (acc : Z) (s : str) : Z :=
  match s with
  | [] => acc
  | ch :: s' =>
      int_digits pf (10 * acc + Z.of_nat (default 0%nat (decimal pf ch))) s'
  end.

(** [int] on a string of decimal digits, the only strings it is given
    here.  A literal with more than [max_str_digits] digits is refused,
    unless that limit is 0. *)
Definition int (pf : platform) (digits : str) : parse_error + Z :=
  if decide (digits = []) then inl InvalidLiteral
  else if decide (max_str_digits pf ≠ 0%nat
                  ∧ (max_str_digits pf < length digits)%nat)
  then inl InvalidLiteral
  else inr (int_digits pf 0 digits).

(** The variables [start], [dirty] and [blocked] of the cell loop. *)
Record scan : Type := Scan {
  scan_start : option (Z * Z);
  scan_dirty : gset (Z * Z);
  scan_blocked : gset (Z * Z)
}.

(** The body of [for c, ch in enumerate(row_str)]. *)
Definition scan_cell (r c : nat) (ch : N) (acc : scan) : parse_error + scan :=
  if decide (ch = ord "@") then
    inr (Scan (Some (Z.of_nat r, Z.of_nat c)) (scan_dirty acc) (scan_blocked acc))
  else if decide (ch = ord "*") then
    inr (Scan (scan_start acc) ({[ (Z.of_nat r, Z.of_nat c) ]} ∪ scan_dirty acc)
           (scan_blocked acc))
  else if decide (ch = ord "#") then
    inr (Scan (scan_start acc) (scan_dirty acc)
           ({[ (Z.of_nat r, Z.of_nat c) ]} ∪ scan_blocked acc))
  else if decide (ch = ord "_" ∨ ch = ord ".") then inr acc
  else inl (UnknownCell ch r c).

(** The loop over the characters of a row, from column [c] on. *)
Fixpoint scan_row (r c : nat) (row_str : str) (acc : scan) : parse_error + scan :=
  match row_str with
  | [] => inr acc
  | ch :: rest =>
      match scan_cell r c ch acc with
      | inl e => inl e
      | inr acc' => scan_row r (S c) rest acc'
      end
  end.

(** The loop [for r in range(rows)], over the row numbers [rs]. *)
Fixpoint scan_rows (cols : Z) (grid_lines : list str) (rs : list nat)
    (acc : scan) : parse_error + scan :=
  match rs with
  | [] => inr acc
  | r :: rs' =>
      match grid_lines !! r with
      | None => inl IndexError
      | Some row_str =>
          if decide (Z.of_nat (length row_str) ≠ cols) then
            inl (RowLength r (length row_str) cols)
          else
            match scan_row r 0 row_str acc with
            | inl e => inl e
            | inr acc' => scan_rows cols grid_lines rs' acc'
            end
      end
  end.

(** [parse_world] from the list [lines] on. *)
Definition parse_lines (pf : platform) (lines : list str) : parse_error + World :=
  match lines with
  | line0 :: line1 :: rest =>
      match int pf (remove_non_digits pf line0) with
      | inl e => inl e
      | inr cols =>
          match int pf (remove_non_digits pf line1) with
          | inl e => inl e
          | inr rows =>
              let grid_lines := take (Z.to_nat rows) rest in
              if decide (Z.of_nat (length grid_lines) ≠ rows) then inl RowsMismatch
              else
                match scan_rows cols grid_lines (seq 0 (Z.to_nat rows))
                        (Scan None ∅ ∅) with
                | inl e => inl e
                | inr acc =>
                    match scan_start acc with
                    | None => inl NoStart
                    | Some start =>
                        inr (rows, cols, scan_blocked acc, start, scan_dirty acc)
                    end
                end
          end
      end
  | _ => inl TooShort
  end.

Definition parse_world (pf : platform) (path : str) : parse_error + World :=
  match read_world_file pf path with
  | inl e => inl e
  | inr raw => parse_lines pf (world_lines raw)
  end.

(** The character of the grid at a cell, if the cell is on the grid. *)
Definition cell_at (grid_lines : list str) (p : Z * Z) : option N :=
  if decide (0 ≤ p.1 ∧ 0 ≤ p.2) then
    grid_lines !! Z.to_nat p.1 ≫= (.!! Z.to_nat p.2)
  else None.

(** The rows of the grid among the lines of a world file. *)
Definition grid_of (rows : Z) (lines : list str) : list str :=
  take (Z.to_nat rows) (drop 2 lines).

(** Row-major order on cells. *)
Definition cell_le (p q : Z * Z) : Prop :=
  p.1 < q.1 ∨ (p.1 = q.1 ∧ p.2 ≤ q.2).

(** The five characters a cell may hold. *)
Definition allowed_cell (ch : N) : Prop :=
  ch ∈ [ord "@"; ord "*"; ord "#"; ord "_"; ord "."].

(** What a list of lines must be like to be read as the world [w]: two
    header lines whose digits give the columns and the rows, then at least
    [rows] lines of [cols] allowed characters each; the dirt is at the
    stars, the blocked cells at the hashes, and the start at the last at
    sign, which must exist. *)
Definition reads_as (pf : platform) (lines : list str) (w : World) : Prop :=
  let '(rows, cols, blocked, start, dirty) := w in
  ∃ line0 line1 rest,
    lines = line0 :: line1 :: rest
    ∧ int pf (remove_non_digits pf line0) = inr cols
    ∧ int pf (remove_non_digits pf line1) = inr rows
    ∧ (Z.to_nat rows ≤ length rest)%nat
    ∧ (∀ r row, (r < Z.to_nat rows)%nat → rest !! r = Some row →
         Z.of_nat (length row) = cols
         ∧ ∀ i ch, row !! i = Some ch → allowed_cell ch)
    ∧ (∀ p, p ∈ dirty ↔ cell_at (grid_of rows lines) p = Some (ord "*"))
    ∧ (∀ p, p ∈ blocked ↔ cell_at (grid_of rows lines) p = Some (ord "#"))
    ∧ cell_at (grid_of rows lines) start = Some (ord "@")
    ∧ (∀ p, cell_at (grid_of rows lines) p = Some (ord "@") → cell_le p start).

(** How many of the plan's actions are moves. *)
Definition moves (plan : list Action) : nat :=
  length (filter (λ a, a ≠ Vac) plan).

(** ** The command line: [main] *)

(** The string an action is in the source, as [print(act)] writes it. *)
Definition token (a : Action) : str :=
  match a with
  | Vac => lit "V"
  | North => lit "N"
  | South => lit "S"
  | East => lit "E"
  | West => lit "W"
  end.

(** How a run of [main] ends: [sys.exit(1)] after a message on the error
    stream, an exception of [parse_world] that nothing catches (the errors
    of opening and decoding the file among them), or the end of [main]
    with the lines printed.  [SearchFault] stands for a search that does
    not return a triple; no run ends so. *)
Inductive run : Type :=
| Exit1 (stderr : str)
| Raised (e : parse_error)
| SearchFault
| Printed (stdout : list str).

(** The two counter lines, [f"{gen} nodes generated"] and
    [f"{exp} nodes expanded"]. *)
Definition counter_lines (gen exp : nat) : list str :=
  [ lit (pretty gen) ++ lit " nodes generated";
    lit (pretty exp) ++ lit " nodes expanded" ].

(** The lines [main] prints for a result: the plan if there is one, one
    action a line, then the two counter lines. *)
Definition report (r : result) : list str :=
  let '(plan, gen, exp) := r in
  match plan with
  | None => []
  | Some plan => token <$> plan
  end
  ++ counter_lines gen exp.

Definition usage_message : str :=
  lit "Usage: python3 planner.py [uniform-cost|depth-first] world-file".

Definition unknown_algorithm_message : str :=
  lit "Unknown algorithm. Use 'uniform-cost' or 'depth-first'.".

(** [main]; [argv] is [sys.argv]. *)
Definition main (pf : platform) (argv : list str) : run :=
  match argv with
  | [_; algo; world_file] =>
      match parse_world pf world_file with
      | inl e => Raised e
      | inr (rows, cols, blocked, start, dirty) =>
          if decide (algo = lit "depth-first") then
            match depth_first_search rows cols blocked start dirty with
            | Some r => Printed (report r)
            | None => SearchFault
            end
          else if decide (algo = lit "uniform-cost") then
            match uniform_cost_search rows cols blocked start dirty with
            | Some (Returned r) => Printed (report r)
            | _ => SearchFault
            end
          else Exit1 unknown_algorithm_message
      end
  | _ => Exit1 usage_message
  end.

(** ** A platform to run examples on *)

(** Python 3.11 with three file names: [world.txt] holds the ordering
    scenario in UTF-8; [utf16.txt] holds the same world with the column
    count written with the Arabic-Indic digit three, and decodes as UTF-16
    only; [bytes.bin] decodes as neither; any other file is missing. *)
Definition example_files (c : codec) (path : str) : read_result :=
  if decide (path = lit "world.txt") then
    match c with
    | Utf8Sig => ReadOk (lit "3" ++ [10%N] ++ lit "1" ++ [10%N] ++ lit "*@*")
    | Utf16 => ReadUnicodeError
    end
  else if decide (path = lit "utf16.txt") then
    match c with
    | Utf8Sig => ReadUnicodeError
    | Utf16 => ReadOk ([1635%N; 13%N; 10%N] ++ lit "1" ++ [13%N; 10%N] ++ lit "*@*")
    end
  else if decide (path = lit "bytes.bin") then ReadUnicodeError
  else ReadOSError.

Definition example_platform : platform :=
  Platform unicode_decimal 4300 example_files.

(** ** The ordering scenario *)

(** A 1x3 grid, the agent at (0,1), dirt at (0,0) and (0,2), no blocked
    cell; the west and the east successor of the start state. *)
Definition ordering_dirt : gset Coord := {[ (0, 0); (0, 2) ]}.
Definition ordering_west : State := ((0, 0), ordering_dirt).
Definition ordering_east : State := ((0, 2), ordering_dirt).

(** A frontier whose only entry has cost 3, for a state recorded at cost 1. *)
Definition stale_frontier : ucs_state :=
  UcsState [Entry 3 7 ((0, 0), ∅) [West]] {[ ((0, 0), ∅) := 1%nat ]} 8 5 2.

(** ** Loop invariants *)

Section LoopSpec.
Context {St Res : Type}.
Variable step : St → Res + St.
Variable Inv : St → Prop.
Variable Post : Res → Prop.
Variable measure : St → nat.

(** What one iteration must do for [Inv] to be a loop invariant, [Post] to
    hold on exit, and [measure] to bound the iterations left. *)
Definition step_ok : Prop :=
  ∀ st, Inv st →
    match step st with
    | inl r => Post r
    | inr st' => Inv st' ∧ (measure st' < measure st)%nat
    end.
End LoopSpec.

(** ** The invariants of the two searches *)

Section Invariants.
Variables (rows cols : Z) (blocked : gset Coord).
Variables (start : Coord) (dirty : gset Coord).

(** The shape of the states a search can meet. *)
Definition in_space (s : State) : Prop :=
  (s.1 = start ∨ in_bounds rows cols s.1) ∧ s.2 ⊆ dirty.

(** [plan] applies from the start state and leads to [t]. *)
Definition plan_to (plan : list Action) (t : State) : Prop :=
  apply_plan rows cols blocked (start, dirty) plan = Some t.

Record dfs_inv (st : dfs_state) : Prop := DfsInv {
  dfs_inv_paths :
    ∀ s p, (s, p) ∈ dfs_stack st → plan_to p s;
  dfs_inv_visited :
    ∀ v, v ∈ dfs_visited st →
      (∃ p, plan_to p v) ∧ is_goal v = false ∧
      ∀ a s', (a, s') ∈ successors v rows cols blocked →
        s' ∈ dfs_visited st ∨ ∃ p, (s', p) ∈ dfs_stack st;
  dfs_inv_start :
    (start, dirty) ∈ dfs_visited st ∨ ∃ p, ((start, dirty), p) ∈ dfs_stack st;
  dfs_inv_count :
    (dfs_expanded st + length (dfs_stack st) ≤ dfs_generated st)%nat
}.

Definition dfs_post (r : result) : Prop :=
  match r with
  | (Some plan, gen, exp) =>
      (∃ t, plan_to plan t ∧ t.2 = ∅) ∧ (exp ≤ gen)%nat
  | (None, gen, exp) =>
      ¬ goal_reachable rows cols blocked (start, dirty) ∧ (exp ≤ gen)%nat
  end.

Definition dfs_measure (st : dfs_state) : nat :=
  (6 * size (state_space rows cols start dirty ∖ dfs_visited st)
   + length (dfs_stack st))%nat.

(** The invariant of the search, also between two rounds of the inner
    [for] loop: [s] is then the state under expansion, [m] its cost and
    [rem] the successors still to come.  At the head of the [while] loop
    [rem] is empty. *)
Record ucs_inv (m : nat) (s : State) (rem : list (Action * State))
    (st : ucs_state) : Prop := UcsInv {
  ucs_inv_start :
    ucs_g_best st !! (start, dirty) = Some 0%nat;
  ucs_inv_frontier :
    ∀ e, e ∈ ucs_frontier st →
      plan_to (e_path e) (e_state e) ∧ length (e_path e) = e_cost e
      ∧ ucs_g_best st !! e_state e = Some (e_cost e);
  ucs_inv_min :
    ∀ e, e ∈ ucs_frontier st → (m ≤ e_cost e)%nat;
  ucs_inv_dist :
    ∀ u g, ucs_g_best st !! u = Some g →
      (∃ p, plan_to p u ∧ length p = g)
      ∧ ∀ q, plan_to q u → (g ≤ length q)%nat;
  ucs_inv_closed :
    ∀ u g, ucs_g_best st !! u = Some g →
      (∃ e, e ∈ ucs_frontier st ∧ e_state e = u)
      ∨ (is_goal u = false
         ∧ ∀ a u', (a, u') ∈ successors u rows cols blocked →
             is_Some (ucs_g_best st !! u')
             ∨ (u = s ∧ g = m ∧ (a, u') ∈ rem));
  ucs_inv_count :
    (ucs_expanded st + length (ucs_frontier st) ≤ ucs_generated st)%nat
}.

Definition ucs_measure (st : ucs_state) : nat :=
  (6 * size (state_space rows cols start dirty ∖ dom (ucs_g_best st))
   + length (ucs_frontier st))%nat.

(** The sequence numbers on the frontier are pairwise distinct and below
    the counter: two entries never compare beyond their second component. *)
Definition seqs_fresh (st : ucs_state) : Prop :=
  NoDup (e_seq <$> ucs_frontier st)
  ∧ ∀ e, e ∈ ucs_frontier st → (e_seq e < ucs_counter st)%nat.

Definition ucs_top (st : ucs_state) : Prop := ucs_inv 0 (start, dirty) [] st.

(** What the search may leave its loop with: never a [KeyError]; a plan
    leads to a goal and no plan to a goal is shorter; no plan only when
    no goal can be reached. *)
Definition ucs_post (o : outcome) : Prop :=
  match o with
  | KeyError => False
  | Returned (Some plan, gen, exp) =>
      (∃ t, plan_to plan t ∧ t.2 = ∅)
      ∧ (∀ q t, plan_to q t → t.2 = ∅ → (length plan ≤ length q)%nat)
      ∧ (exp ≤ gen)%nat
  | Returned (None, gen, exp) =>
      ¬ goal_reachable rows cols blocked (start, dirty) ∧ (exp ≤ gen)%nat
  end.

End Invariants.

(** * Proofs *)

(** ** Loops *)

Section LoopFacts.
Context {St Res : Type}.
Variable step : St → Res + St.

Lemma loop_mono fuel fuel' st r :
  loop step fuel st = Some r → (fuel ≤ fuel')%nat → loop step fuel' st = Some r.
Proof.
  revert fuel' st. induction fuel as [|fuel IH]; intros fuel' st Hr Hle; [done|].
  destruct fuel' as [|fuel']; [lia|]. simpl in *.
  destruct (step st) as [r'|st']; [done|]. apply IH; [done|lia].
Qed.

Lemma iterate_preserves (P : St → Prop) :
  (∀ st st', P st → step st = inr st' → P st') →
  ∀ n st st', P st → iterate step n st = Some st' → P st'.
Proof.
  intros Hpres n. induction n as [|n IH]; intros st st' HP Hit; simpl in Hit.
  - by simplify_eq.
  - destruct (step st) as [r|st1] eqn:Hs; [done|]. eapply IH; [|done].
    by eapply Hpres.
Qed.

Variable Inv : St → Prop.
Variable Post : Res → Prop.
Variable measure : St → nat.
Hypothesis Hstep : step_ok step Inv Post measure.

Lemma loop_partial fuel st r :
  Inv st → loop step fuel st = Some r → Post r.
Proof.
  revert st. induction fuel as [|fuel IH]; intros st HI Hr; [done|].
  simpl in Hr. pose proof (Hstep st HI) as Hs.
  destruct (step st) as [r'|st']; [by simplify_eq|].
  destruct Hs as [HI' _]. by eapply IH.
Qed.

Lemma loop_total fuel st :
  Inv st → (measure st < fuel)%nat → ∃ r, loop step fuel st = Some r ∧ Post r.
Proof.
  revert st. induction fuel as [|fuel IH]; intros st HI Hlt; [lia|].
  simpl. pose proof (Hstep st HI) as Hs.
  destruct (step st) as [r'|st']; [by eexists|].
  destruct Hs as [HI' Hdec]. apply IH; [done|lia].
Qed.

Lemma iterate_inv n st st' :
  Inv st → iterate step n st = Some st' → Inv st'.
Proof.
  revert st. induction n as [|n IH]; intros st HI Hit; simpl in Hit.
  - by simplify_eq.
  - pose proof (Hstep st HI) as Hs. destruct (step st) as [r|st1]; [done|].
    destruct Hs as [HI' _]. by eapply IH.
Qed.
End LoopFacts.

(** ** The successor rule *)

Section Transition.
Variables (rows cols : Z) (blocked : gset Coord).

Lemma filter_other_difference (p : Coord) (dirty : gset Coord) :
  filter (λ d, d ≠ p) dirty = dirty ∖ {[ p ]}.
Proof. apply set_eq. intros x. rewrite elem_of_filter. set_solver. Qed.

Lemma successors_legal (s : State) :
  successors s rows cols blocked = legal_successors rows cols blocked s.
Proof.
  destruct s as [[r c] dirty].
  unfold successors, legal_successors, offer, applicable, outcome_of,
    in_bounds, destination, MOVE_DIRS.
  cbn [flat_map fst snd]. rewrite filter_other_difference.
  rewrite !Z.add_0_r, app_nil_r.
  change (r + -1) with (r - 1). change (c + -1) with (c - 1).
  f_equal. repeat (f_equal; [by repeat case_decide; try done; exfalso; naive_solver|]).
  by repeat case_decide; try done; exfalso; naive_solver.
Qed.

Lemma elem_of_offer s a b s' :
  (b, s') ∈ offer rows cols blocked s a ↔
  b = a ∧ applicable rows cols blocked s a ∧ s' = outcome_of s a.
Proof.
  unfold offer. case_decide.
  - rewrite list_elem_of_singleton. naive_solver.
  - rewrite elem_of_nil. naive_solver.
Qed.

Lemma elem_of_successors s a s' :
  (a, s') ∈ successors s rows cols blocked ↔
  applicable rows cols blocked s a ∧ s' = outcome_of s a.
Proof.
  rewrite successors_legal. unfold legal_successors.
  rewrite !elem_of_app, !elem_of_offer. destruct a; naive_solver.
Qed.

Lemma lookup_action_offer s a b l :
  lookup_action a (offer rows cols blocked s b ++ l) =
  if decide (a = b ∧ applicable rows cols blocked s b)
  then Some (outcome_of s b) else lookup_action a l.
Proof.
  unfold offer. repeat case_decide; simpl; try case_decide; naive_solver.
Qed.

Lemma apply_action_Some s a s' :
  apply_action rows cols blocked s a = Some s' ↔
  (a, s') ∈ successors s rows cols blocked.
Proof.
  rewrite elem_of_successors. unfold apply_action.
  rewrite successors_legal. unfold legal_successors.
  rewrite <- (app_nil_r (offer rows cols blocked s West)).
  rewrite !lookup_action_offer. simpl.
  destruct a; repeat case_decide; naive_solver.
Qed.

Lemma length_offer s a : (length (offer rows cols blocked s a) ≤ 1)%nat.
Proof. unfold offer. case_decide; simpl; lia. Qed.

Lemma length_successors s : (length (successors s rows cols blocked) ≤ 5)%nat.
Proof.
  rewrite successors_legal. unfold legal_successors. rewrite !length_app.
  pose proof (length_offer s Vac). pose proof (length_offer s North).
  pose proof (length_offer s South). pose proof (length_offer s East).
  pose proof (length_offer s West). lia.
Qed.

(** The generator already yields in [ACTION_ORDER], so the sort of
    [depth_first_search] changes nothing. *)
Lemma sort_successors s :
  sort_by_key action_key (successors s rows cols blocked)
  = successors s rows cols blocked.
Proof.
  rewrite successors_legal. unfold legal_successors, offer.
  repeat case_decide; reflexivity.
Qed.

Lemma apply_plan_snoc s plan a :
  apply_plan rows cols blocked s (plan ++ [a]) =
  apply_plan rows cols blocked s plan ≫= λ t, apply_action rows cols blocked t a.
Proof.
  revert s. induction plan as [|b plan IH]; intros s; simpl.
  - by destruct (apply_action rows cols blocked s a).
  - destruct (apply_action rows cols blocked s b); [apply IH|done].
Qed.

Lemma is_goal_true s : is_goal s = true ↔ s.2 = ∅.
Proof.
  unfold is_goal. rewrite bool_decide_eq_true, size_empty_iff. by unfold_leibniz.
Qed.

Lemma is_goal_false s : is_goal s = false ↔ s.2 ≠ ∅.
Proof. rewrite <- is_goal_true. by destruct (is_goal s). Qed.
End Transition.

(** ** The state space is finite and closed under the successor rule *)

Section StateSpace.
Variables (rows cols : Z) (blocked : gset Coord).
Variables (start : Coord) (dirty : gset Coord).

Local Abbreviation inside := (in_space rows cols start dirty).

Lemma elem_of_grid_cells p : p ∈ grid_cells rows cols ↔ in_bounds rows cols p.
Proof.
  unfold grid_cells, in_bounds. destruct p as [r c]. simpl.
  rewrite list_elem_of_bind. split.
  - intros (r' & Hc & Hr). rewrite list_elem_of_bind in Hc.
    destruct Hc as (c' & Hp & Hc). rewrite list_elem_of_singleton in Hp.
    rewrite elem_of_seqZ in Hr, Hc. simplify_eq. lia.
  - intros [Hr Hc]. exists r. split; [|rewrite elem_of_seqZ; lia].
    rewrite list_elem_of_bind. exists c.
    split; [by rewrite list_elem_of_singleton|rewrite elem_of_seqZ; lia].
Qed.

Lemma elem_of_subsets (l : list Coord) (d : gset Coord) :
  d ⊆ list_to_set l → d ∈ subsets l.
Proof.
  revert d. induction l as [|x l IH]; intros d Hd; simpl in *.
  - assert (d = ∅) as -> by set_solver. by rewrite list_elem_of_singleton.
  - rewrite elem_of_app. destruct (decide (x ∈ d)) as [Hx|Hx].
    + right. rewrite list_elem_of_fmap. exists (d ∖ {[ x ]}). split.
      * apply set_eq. intros y. destruct (decide (y = x)); set_solver.
      * apply IH. set_solver.
    + left. apply IH. set_solver.
Qed.

Lemma in_space_state_space s :
  inside s → s ∈ state_space rows cols start dirty.
Proof.
  destruct s as [p d]. intros [Hp Hd]. simpl in *. unfold state_space.
  rewrite elem_of_list_to_set, list_elem_of_bind. exists p. split.
  - rewrite list_elem_of_bind. exists d.
    split; [by rewrite list_elem_of_singleton|].
    apply elem_of_subsets. by rewrite list_to_set_elements_L.
  - rewrite elem_of_cons, elem_of_grid_cells. naive_solver.
Qed.

Lemma in_space_successor s a s' :
  inside s → (a, s') ∈ successors s rows cols blocked → inside s'.
Proof.
  intros [Hp Hd]. rewrite elem_of_successors. intros [Happ ->].
  unfold in_space. destruct a; simpl in *; set_solver.
Qed.

Lemma in_space_reachable plan t :
  apply_plan rows cols blocked (start, dirty) plan = Some t → inside t.
Proof.
  revert t. induction plan as [|a plan IH] using rev_ind; intros t Ht.
  - simpl in Ht. simplify_eq. unfold in_space. simpl. set_solver.
  - rewrite apply_plan_snoc in Ht.
    destruct (apply_plan rows cols blocked (start, dirty) plan) as [u|] eqn:Hu;
      [|done].
    simpl in Ht. apply apply_action_Some in Ht.
    eapply in_space_successor; [by apply IH|done].
Qed.

Lemma reachable_state_space plan t :
  apply_plan rows cols blocked (start, dirty) plan = Some t →
  t ∈ state_space rows cols start dirty.
Proof. intros. by eapply in_space_state_space, in_space_reachable. Qed.

(** Marking one more state of the space leaves strictly fewer unmarked. *)
Lemma size_unmarked (space marked : gset State) s :
  s ∈ space → s ∉ marked →
  (S (size (space ∖ ({[ s ]} ∪ marked))) ≤ size (space ∖ marked))%nat.
Proof.
  intros Hs Hm. apply Nat.le_succ_l, subset_size. set_solver.
Qed.
End StateSpace.

(** ** Depth-first search *)

Lemma fold_dfs_push path l gen stack :
  fold_left (dfs_push path) l (gen, stack)
  = ((gen + length l)%nat,
     ((λ ap : Action * State, (ap.2, path ++ [ap.1])) <$> rev l) ++ stack).
Proof.
  revert gen stack. induction l as [|x l IH]; intros gen stack; simpl.
  - f_equal. lia.
  - unfold dfs_push at 2. simpl. rewrite IH. f_equal; [lia|].
    rewrite fmap_app. simpl. by rewrite <- app_assoc.
Qed.

Section DepthFirst.
Variables (rows cols : Z) (blocked : gset Coord).
Variables (start : Coord) (dirty : gset Coord).

Local Abbreviation s0 := (start, dirty).
Local Abbreviation leads := (plan_to rows cols blocked start dirty).
Local Abbreviation inv := (dfs_inv rows cols blocked start dirty).
Local Abbreviation post := (dfs_post rows cols blocked start dirty).
Local Abbreviation measure := (dfs_measure rows cols start dirty).

(** The iteration that expands a state that is not a goal. *)
Lemma dfs_step_expand st state path stack :
  dfs_stack st = (state, path) :: stack →
  state ∉ dfs_visited st → is_goal state = false →
  dfs_step rows cols blocked st =
  inr (DfsState
         (((λ ap : Action * State, (ap.2, path ++ [ap.1]))
             <$> successors state rows cols blocked) ++ stack)
         ({[ state ]} ∪ dfs_visited st)
         (dfs_generated st + length (successors state rows cols blocked))
         (S (dfs_expanded st))).
Proof.
  intros Hstack Hvis Hgoal. unfold dfs_step. rewrite Hstack.
  rewrite decide_False by done. rewrite Hgoal.
  rewrite sort_successors, fold_dfs_push. simpl.
  by rewrite length_rev, rev_involutive.
Qed.

Lemma dfs_inv_init : inv (dfs_init start dirty).
Proof.
  split; simpl.
  - intros s p Hin. apply list_elem_of_singleton in Hin. by simplify_eq.
  - intros v Hv. set_solver.
  - right. exists []. by apply list_elem_of_singleton.
  - lia.
Qed.

(** With the stack empty, the visited set holds every reachable state. *)
Lemma dfs_visited_all st plan t :
  inv st → dfs_stack st = [] → leads plan t → t ∈ dfs_visited st.
Proof.
  intros [_ Hvis Hstart _] Hnil. rewrite Hnil in Hstart, Hvis.
  revert t. induction plan as [|a plan IH] using rev_ind; intros t Ht.
  - unfold plan_to in Ht. simpl in Ht. simplify_eq.
    destruct Hstart as [?|[p Hp]]; [done|by apply elem_of_nil in Hp].
  - unfold plan_to in Ht. rewrite apply_plan_snoc in Ht.
    destruct (apply_plan rows cols blocked s0 plan) as [u|] eqn:Hu; [|done].
    simpl in Ht. apply apply_action_Some in Ht.
    destruct (Hvis u (IH u Hu)) as (_ & _ & Hsucc).
    destruct (Hsucc a t Ht) as [?|[p Hp]]; [done|by apply elem_of_nil in Hp].
Qed.

Lemma dfs_step_ok :
  step_ok (dfs_step rows cols blocked) inv post measure.
Proof.
  intros st Hinv. destruct (dfs_stack st) as [|[state path] stack] eqn:Hstack.
  - (* the frontier ran empty *)
    unfold dfs_step. rewrite Hstack. simpl. split.
    + intros (plan & t & Ht & Hgoal).
      pose proof (dfs_visited_all st plan t Hinv Hstack Ht) as Hin.
      destruct (dfs_inv_visited _ _ _ _ _ st Hinv t Hin) as (_ & Hng & _).
      apply is_goal_false in Hng. done.
    + pose proof (dfs_inv_count _ _ _ _ _ st Hinv). lia.
  - destruct Hinv as [Hpaths Hvis Hstart Hcount]. rewrite Hstack in *.
    assert (leads path state) as Hpath by (apply Hpaths; left).
    destruct (decide (state ∈ dfs_visited st)) as [Hin|Hnotin].
    + (* already visited: dropped *)
      unfold dfs_step. rewrite Hstack, decide_True by done. split.
      * split; simpl.
        -- intros s p Hsp. apply Hpaths. by right.
        -- intros v Hv. destruct (Hvis v Hv) as (Hp & Hng & Hsucc).
           split_and!; [done..|]. intros a s' Has.
           destruct (Hsucc a s' Has) as [?|[p Hp']]; [by left|].
           apply elem_of_cons in Hp'. destruct Hp' as [?|?]; [|by eauto].
           simplify_eq. by left.
        -- destruct Hstart as [?|[p Hp']]; [by left|].
           apply elem_of_cons in Hp'. destruct Hp' as [?|?]; [|by eauto].
           simplify_eq. by left.
        -- simpl in Hcount. lia.
      * unfold dfs_measure. rewrite Hstack. simpl. lia.
    + destruct (is_goal state) eqn:Hgoal.
      * (* a goal: returned *)
        unfold dfs_step. rewrite Hstack, decide_False, Hgoal by done. simpl.
        split; [|simpl in Hcount; lia].
        exists state. split; [done|by apply is_goal_true].
      * (* expanded *)
        rewrite (dfs_step_expand st state path stack) by done.
        pose proof (length_successors rows cols blocked state) as Hlen.
        split.
        -- split; simpl.
           ++ intros s p Hsp. apply elem_of_app in Hsp.
              destruct Hsp as [Hsp|Hsp]; [|apply Hpaths; by right].
              apply list_elem_of_fmap in Hsp. destruct Hsp as ([a s'] & ? & Has).
              simplify_eq. simpl. unfold plan_to.
              rewrite apply_plan_snoc, Hpath. simpl. by apply apply_action_Some.
           ++ intros v Hv. apply elem_of_union in Hv.
              destruct Hv as [Hv|Hv].
              ** apply elem_of_singleton in Hv. subst v.
                 split_and!; [by eauto|done|]. intros a s' Has. right.
                 exists (path ++ [a]). apply elem_of_app. left.
                 apply list_elem_of_fmap. by exists (a, s').
              ** destruct (Hvis v Hv) as (Hp & Hng & Hsucc).
                 split_and!; [done..|]. intros a s' Has.
                 destruct (Hsucc a s' Has) as [?|[p Hp']]; [left; set_solver|].
                 apply elem_of_cons in Hp'. destruct Hp' as [?|?].
                 --- simplify_eq. left. set_solver.
                 --- right. exists p. apply elem_of_app. by right.
           ++ destruct Hstart as [?|[p Hp']]; [left; set_solver|].
              apply elem_of_cons in Hp'. destruct Hp' as [?|?].
              ** simplify_eq. left. set_solver.
              ** right. exists p. apply elem_of_app. by right.
           ++ rewrite length_app, length_fmap. simpl in Hcount. lia.
        -- unfold dfs_measure. rewrite Hstack. simpl.
           rewrite length_app, length_fmap.
           pose proof (size_unmarked (state_space rows cols start dirty)
                         (dfs_visited st) state
                         (reachable_state_space _ _ _ _ _ _ _ Hpath) Hnotin).
           lia.
Qed.

Lemma dfs_measure_init :
  (measure (dfs_init start dirty) < search_fuel rows cols start dirty)%nat.
Proof.
  unfold dfs_measure, search_fuel. simpl.
  pose proof (subseteq_size (state_space rows cols start dirty ∖ ∅)
                (state_space rows cols start dirty)).
  assert (size (state_space rows cols start dirty ∖ ∅)
          ≤ size (state_space rows cols start dirty))%nat
    by (apply subseteq_size; set_solver).
  lia.
Qed.

(** The search returns, and what it returns satisfies [dfs_post]. *)
Lemma dfs_returns :
  ∃ r, depth_first_search rows cols blocked start dirty = Some r ∧ post r.
Proof.
  unfold depth_first_search.
  apply (loop_total _ inv post measure dfs_step_ok).
  - apply dfs_inv_init.
  - apply dfs_measure_init.
Qed.
End DepthFirst.

(** ** The priority queue *)

Lemma entry_leb_cost e1 e2 :
  entry_leb e1 e2 = true → (e_cost e1 ≤ e_cost e2)%nat.
Proof.
  unfold entry_leb. intros H. apply orb_prop in H. destruct H as [H|H].
  - apply Nat.ltb_lt in H. lia.
  - apply andb_prop in H. destruct H as [H _]. apply Nat.eqb_eq in H. lia.
Qed.

Lemma entry_leb_total e1 e2 :
  entry_leb e1 e2 = false → (e_cost e2 ≤ e_cost e1)%nat.
Proof.
  unfold entry_leb. intros H. apply orb_false_elim in H. destruct H as [H _].
  apply Nat.ltb_ge in H. lia.
Qed.

Lemma heappop_None h : heappop h = None ↔ h = [].
Proof.
  destruct h as [|e h]; [done|]. simpl.
  destruct (heappop h) as [[m rest]|]; [|done]. by destruct (entry_leb e m).
Qed.

(** [heappop] takes one entry out, and it is one of least cost. *)
Lemma heappop_Some h e rest :
  heappop h = Some (e, rest) →
  (∀ x, x ∈ h ↔ x = e ∨ x ∈ rest)
  ∧ length h = S (length rest)
  ∧ ∀ x, x ∈ h → (e_cost e ≤ e_cost x)%nat.
Proof.
  revert e rest. induction h as [|y h IH]; intros e rest Hpop; [done|].
  simpl in Hpop. destruct (heappop h) as [[m rest']|] eqn:Hh.
  - destruct (IH m rest' eq_refl) as (Hmem & Hlen & Hmin).
    destruct (entry_leb y m) eqn:Hle; simplify_eq.
    + split_and!; [by intros x; rewrite elem_of_cons|done|].
      intros x Hx. apply elem_of_cons in Hx. destruct Hx as [->|Hx]; [done|].
      apply entry_leb_cost in Hle. specialize (Hmin x Hx). lia.
    + split_and!.
      * intros x. rewrite !elem_of_cons, Hmem. naive_solver.
      * simpl. by rewrite Hlen.
      * intros x Hx. apply elem_of_cons in Hx. destruct Hx as [->|Hx].
        -- by apply entry_leb_total.
        -- by apply Hmin.
  - apply heappop_None in Hh. simplify_eq. split_and!; [|done|].
    + intros x. rewrite elem_of_cons, elem_of_nil. naive_solver.
    + intros x Hx. apply list_elem_of_singleton in Hx. by subst.
Qed.

(** ** Uniform-cost search *)

Lemma entry_leb_spec e1 e2 :
  entry_leb e1 e2 = true ↔
  (e_cost e1 < e_cost e2 ∨ (e_cost e1 = e_cost e2 ∧ e_seq e1 ≤ e_seq e2))%nat.
Proof.
  unfold entry_leb.
  rewrite orb_true_iff, andb_true_iff, Nat.ltb_lt, Nat.eqb_eq, Nat.leb_le.
  done.
Qed.

(** The popped entry is least in the tuple order. *)
Lemma heappop_least h e rest :
  heappop h = Some (e, rest) → ∀ x, x ∈ h → entry_leb e x = true.
Proof.
  revert e rest. induction h as [|y h IH]; intros e rest Hpop x Hx; [done|].
  simpl in Hpop. destruct (heappop h) as [[m rest']|] eqn:Hh.
  - specialize (IH m rest' eq_refl).
    destruct (entry_leb y m) eqn:Hle; simplify_eq.
    + apply elem_of_cons in Hx. destruct Hx as [->|Hx].
      * apply entry_leb_spec. lia.
      * specialize (IH x Hx). apply entry_leb_spec in IH, Hle.
        apply entry_leb_spec. lia.
    + apply elem_of_cons in Hx. destruct Hx as [->|Hx]; [|by apply IH].
      apply entry_leb_spec. apply not_true_iff_false in Hle.
      rewrite entry_leb_spec in Hle. lia.
  - apply heappop_None in Hh. simplify_eq.
    apply list_elem_of_singleton in Hx. subst. apply entry_leb_spec. lia.
Qed.

Lemma heappop_perm h e rest : heappop h = Some (e, rest) → h ≡ₚ e :: rest.
Proof.
  revert e rest. induction h as [|y h IH]; intros e rest Hpop; [done|].
  simpl in Hpop. destruct (heappop h) as [[m rest']|] eqn:Hh.
  - specialize (IH m rest' eq_refl).
    destruct (entry_leb y m); simplify_eq; [done|].
    rewrite IH. apply Permutation_swap.
  - apply heappop_None in Hh. by simplify_eq.
Qed.

Lemma ucs_relax_fresh g path st succ :
  seqs_fresh st → seqs_fresh (ucs_relax g path st succ).
Proof.
  intros [Hnodup Hlt]. destruct succ as [act nxt]. unfold ucs_relax.
  destruct (match ucs_g_best st !! nxt with
            | Some p => (g + 1 <? p)%nat | None => true end); [|done].
  split; simpl.
  - apply NoDup_cons. split; [|done]. intros Hin.
    apply list_elem_of_fmap in Hin. destruct Hin as (e & Hseq & He).
    specialize (Hlt e He). lia.
  - intros e He. apply elem_of_cons in He. destruct He as [->|He]; simpl; [lia|].
    specialize (Hlt e He). lia.
Qed.

Lemma ucs_relax_fold_fresh g path l st :
  seqs_fresh st → seqs_fresh (fold_left (ucs_relax g path) l st).
Proof.
  revert st. induction l as [|x l IH]; intros st Hst; simpl; [done|].
  by apply IH, ucs_relax_fresh.
Qed.

Lemma ucs_step_fresh rows cols blocked st st' :
  seqs_fresh st → ucs_step rows cols blocked st = inr st' → seqs_fresh st'.
Proof.
  intros [Hnodup Hlt] Hstep. unfold ucs_step in Hstep.
  destruct (heappop (ucs_frontier st)) as [[[g n state path] frontier]|] eqn:Hpop;
    [|done].
  pose proof (heappop_perm _ _ _ Hpop) as Hperm.
  assert (seqs_fresh (UcsState frontier (ucs_g_best st) (ucs_counter st)
                        (ucs_generated st) (ucs_expanded st))) as Hrest.
  { split; simpl.
    - rewrite Hperm in Hnodup. simpl in Hnodup. by apply NoDup_cons in Hnodup as [_ ?].
    - intros e He. apply Hlt. rewrite Hperm. by right. }
  destruct (ucs_g_best st !! state) as [best|]; [|done].
  destruct (best <? g)%nat; [by simplify_eq|].
  destruct (is_goal state); [done|]. simplify_eq.
  apply ucs_relax_fold_fresh. destruct Hrest as [? ?]. by split.
Qed.

(** Throughout a run the frontier's sequence numbers are distinct. *)
Lemma ucs_seqs_distinct rows cols blocked start dirty n st :
  iterate (ucs_step rows cols blocked) n (ucs_init start dirty) = Some st →
  seqs_fresh st.
Proof.
  apply (iterate_preserves _ seqs_fresh).
  - intros ? ?. apply ucs_step_fresh.
  - split; simpl.
    + apply NoDup_singleton.
    + intros e He. apply list_elem_of_singleton in He. subst. simpl. lia.
Qed.

Lemma ucs_relax_expanded g path st succ :
  ucs_expanded (ucs_relax g path st succ) = ucs_expanded st.
Proof.
  destruct succ as [act nxt]. unfold ucs_relax.
  by destruct (match ucs_g_best st !! nxt with
               | Some p => (g + 1 <? p)%nat | None => true end).
Qed.

Lemma ucs_relax_fold_expanded g path l st :
  ucs_expanded (fold_left (ucs_relax g path) l st) = ucs_expanded st.
Proof.
  revert st. induction l as [|x l IH]; intros st; simpl; [done|].
  by rewrite IH, ucs_relax_expanded.
Qed.

Section UniformCost.
Variables (rows cols : Z) (blocked : gset Coord).
Variables (start : Coord) (dirty : gset Coord).

Local Abbreviation s0 := (start, dirty).
Local Abbreviation leads := (plan_to rows cols blocked start dirty).
Local Abbreviation inv := (ucs_inv rows cols blocked start dirty).
Local Abbreviation top := (ucs_top rows cols blocked start dirty).
Local Abbreviation post := (ucs_post rows cols blocked start dirty).
Local Abbreviation measure := (ucs_measure rows cols start dirty).

(** A plan either ends in a state with a recorded cost, or is longer than
    the cheapest frontier entry. *)
Lemma ucs_cut m s rem st q t :
  inv m s rem st → leads q t →
  is_Some (ucs_g_best st !! t) ∨ (m < length q)%nat.
Proof.
  intros [Hstart Hfront Hmin Hdist Hclosed _].
  revert t. induction q as [|a q IH] using rev_ind; intros t Ht.
  - unfold plan_to in Ht. simpl in Ht. simplify_eq. left. by eexists.
  - unfold plan_to in Ht. rewrite apply_plan_snoc in Ht.
    destruct (apply_plan rows cols blocked s0 q) as [u|] eqn:Hu; [|done].
    simpl in Ht. apply apply_action_Some in Ht. rewrite length_app. simpl.
    destruct (IH u Hu) as [[g Hg]|?]; [|right; lia].
    destruct (Hdist u g Hg) as [_ Hle]. specialize (Hle q Hu).
    destruct (Hclosed u g Hg) as [(e & He & Heu)|[_ Hsucc]].
    + right. destruct (Hfront e He) as (_ & _ & Hbest).
      rewrite Heu, Hg in Hbest. simplify_eq. specialize (Hmin e He). lia.
    + destruct (Hsucc a t Ht) as [?|(_ & -> & _)]; [by left|right; lia].
Qed.

(** At the head of the loop neither [m] nor [s] matters, as long as [m]
    is below the frontier. *)
Lemma ucs_inv_rebase m s m' s' st :
  inv m s [] st →
  (∀ e, e ∈ ucs_frontier st → (m' ≤ e_cost e)%nat) →
  inv m' s' [] st.
Proof.
  intros [Hstart Hfront Hmin Hdist Hclosed Hcount] Hmin'.
  split; [done..| |done].
  intros u g Hg. destruct (Hclosed u g Hg) as [?|[Hng Hsucc]]; [by left|].
  right. split; [done|]. intros a u' Hau.
  destruct (Hsucc a u' Hau) as [?|(_ & _ & Hnil)]; [by left|].
  by apply elem_of_nil in Hnil.
Qed.

(** One round of the inner loop. *)
Lemma ucs_relax_inv m s p a nxt rem st :
  leads p s → length p = m →
  (a, nxt) ∈ successors s rows cols blocked →
  inv m s ((a, nxt) :: rem) st →
  inv m s rem (ucs_relax m p st (a, nxt))
  ∧ (measure (ucs_relax m p st (a, nxt)) ≤ measure st)%nat.
Proof.
  intros Hp Hlen Hsucc Hinv.
  assert (leads (p ++ [a]) nxt) as Hpa.
  { unfold plan_to. rewrite apply_plan_snoc, Hp. simpl.
    by apply apply_action_Some. }
  assert (length (p ++ [a]) = (m + 1)%nat) as Hlena
    by (rewrite length_app; simpl; lia).
  pose proof (λ q t, ucs_cut _ _ _ _ q t Hinv) as Hcut.
  destruct Hinv as [Hstart Hfront Hmin Hdist Hclosed Hcount].
  unfold ucs_relax. destruct (ucs_g_best st !! nxt) as [prev|] eqn:Hprev.
  - (* a cost is recorded already, and it is no worse *)
    destruct (Hdist nxt prev Hprev) as [_ Hle]. specialize (Hle _ Hpa).
    rewrite (proj2 (Nat.ltb_ge _ _)) by lia.
    split; [|done]. split; [done..| |done].
    intros u g Hg. destruct (Hclosed u g Hg) as [?|[Hng Hsuccs]]; [by left|].
    right. split; [done|]. intros b u' Hbu.
    destruct (Hsuccs b u' Hbu) as [?|(-> & -> & Hin)]; [by left|].
    apply elem_of_cons in Hin. destruct Hin as [?|?]; [|by right].
    simplify_eq. left. by eexists.
  - (* a new state: recorded and pushed *)
    assert (∀ u g, ucs_g_best st !! u = Some g → u ≠ nxt) as Hne
      by (intros u g Hg ->; congruence).
    split; [split; simpl|].
    + rewrite lookup_insert_ne; [done|]. intros Heq. by eapply Hne.
    + intros e He. apply elem_of_cons in He. destruct He as [->|He]; simpl.
      * by rewrite lookup_insert_eq.
      * destruct (Hfront e He) as (? & ? & Hbest). split_and!; [done..|].
        rewrite lookup_insert_ne; [done|]. intros Heq. by eapply Hne.
    + intros e He. apply elem_of_cons in He. destruct He as [->|He]; simpl.
      * lia.
      * by apply Hmin.
    + intros u g Hg. destruct (decide (u = nxt)) as [->|Hu].
      * rewrite lookup_insert_eq in Hg. simplify_eq. split; [by eauto|].
        intros q Hq. destruct (Hcut q nxt Hq) as [[? ?]|?]; [congruence|lia].
      * rewrite lookup_insert_ne in Hg by done. by apply Hdist.
    + intros u g Hg. destruct (decide (u = nxt)) as [->|Hu].
      * left. eexists. split; [by left|done].
      * rewrite lookup_insert_ne in Hg by done.
        destruct (Hclosed u g Hg) as [(e & He & Heu)|[Hng Hsuccs]].
        -- left. exists e. split; [by right|done].
        -- right. split; [done|]. intros b u' Hbu.
           destruct (Hsuccs b u' Hbu) as [Hknown|(-> & -> & Hin)].
           ++ left. rewrite lookup_insert_is_Some. destruct (decide (nxt = u')); eauto.
           ++ apply elem_of_cons in Hin. destruct Hin as [?|?]; [|by right].
              simplify_eq. left. rewrite lookup_insert_eq. by eexists.
    + lia.
    + unfold ucs_measure. simpl. rewrite dom_insert_L.
      pose proof (size_unmarked (state_space rows cols start dirty)
                    (dom (ucs_g_best st)) nxt
                    (reachable_state_space _ _ _ _ _ _ _ Hpa)) as Hsize.
      rewrite not_elem_of_dom in Hsize. specialize (Hsize Hprev). lia.
Qed.

(** The whole inner loop. *)
Lemma ucs_relax_fold_inv m s p rem st :
  leads p s → length p = m →
  (∀ x, x ∈ rem → x ∈ successors s rows cols blocked) →
  inv m s rem st →
  inv m s [] (fold_left (ucs_relax m p) rem st)
  ∧ (measure (fold_left (ucs_relax m p) rem st) ≤ measure st)%nat.
Proof.
  intros Hp Hlen. revert st.
  induction rem as [|[a nxt] rem IH]; intros st Hrem Hinv; simpl; [done|].
  assert ((a, nxt) ∈ successors s rows cols blocked) as Hsucc
    by (apply Hrem; by left).
  destruct (ucs_relax_inv m s p a nxt rem st Hp Hlen Hsucc Hinv) as [Hinv' Hle].
  assert (∀ x, x ∈ rem → x ∈ successors s rows cols blocked) as Hrem'
    by (intros x Hx; apply Hrem; by right).
  destruct (IH (ucs_relax m p st (a, nxt)) Hrem' Hinv') as [Hinv'' Hle'].
  split; [exact Hinv''|]. etrans; [exact Hle'|exact Hle].
Qed.

Lemma ucs_inv_init : top (ucs_init start dirty).
Proof.
  split; simpl.
  - by rewrite lookup_singleton_eq.
  - intros e He. apply list_elem_of_singleton in He. subst e. simpl.
    by rewrite lookup_singleton_eq.
  - intros e _. lia.
  - intros u g Hg. apply lookup_singleton_Some in Hg. destruct Hg as [<- <-].
    split; [by exists []|]. intros q _. lia.
  - intros u g Hg. apply lookup_singleton_Some in Hg. destruct Hg as [<- <-].
    left. eexists. split; [by apply list_elem_of_singleton|done].
  - lia.
Qed.

(** A goal with a recorded cost is still on the frontier. *)
Lemma ucs_goal_on_frontier m s st t g :
  inv m s [] st → ucs_g_best st !! t = Some g → t.2 = ∅ →
  ∃ e, e ∈ ucs_frontier st ∧ e_state e = t ∧ e_cost e = g.
Proof.
  intros Hinv Hg Ht.
  destruct (ucs_inv_closed _ _ _ _ _ _ _ _ _ Hinv t g Hg) as [(e & He & Het)|[Hng _]].
  - exists e. split_and!; [done..|].
    destruct (ucs_inv_frontier _ _ _ _ _ _ _ _ _ Hinv e He) as (_ & _ & Hbest).
    rewrite Het, Hg in Hbest. by simplify_eq.
  - apply is_goal_false in Hng. done.
Qed.

Lemma ucs_step_ok :
  step_ok (ucs_step rows cols blocked) top post measure.
Proof.
  intros st Hinv. unfold ucs_step.
  destruct (heappop (ucs_frontier st)) as [[[g n state path] frontier]|] eqn:Hpop.
  - destruct (heappop_Some _ _ _ Hpop) as (Hmem & Hlen & Hleast).
    set (e := Entry g n state path) in *.
    assert (e ∈ ucs_frontier st) as He by (apply Hmem; by left).
    destruct (ucs_inv_frontier _ _ _ _ _ _ _ _ _ Hinv e He) as (Hpath & Hplen & Hbest).
    simpl in Hpath, Hplen, Hbest. rewrite Hbest.
    rewrite (proj2 (Nat.ltb_ge _ _)) by lia.
    assert (inv g state [] st) as Hinv'
      by (eapply ucs_inv_rebase; [exact Hinv|exact Hleast]).
    destruct (is_goal state) eqn:Hgoal.
    + (* the least entry is a goal *)
      simpl. split_and!.
      * exists state. split; [done|by apply is_goal_true].
      * intros q t Hq Ht.
        destruct (ucs_cut _ _ _ _ q t Hinv' Hq) as [[g' Hg']|?]; [|lia].
        destruct (ucs_goal_on_frontier _ _ _ _ _ Hinv' Hg' Ht)
          as (e' & He' & _ & Hcost).
        destruct (ucs_inv_dist _ _ _ _ _ _ _ _ _ Hinv' t g' Hg') as [_ Hle].
        specialize (Hle q Hq). specialize (Hleast e' He'). simpl in Hleast. lia.
      * pose proof (ucs_inv_count _ _ _ _ _ _ _ _ _ Hinv). lia.
    + (* the least entry is expanded *)
      set (st1 := UcsState frontier (ucs_g_best st) (ucs_counter st)
                    (ucs_generated st) (S (ucs_expanded st))).
      assert (inv g state (successors state rows cols blocked) st1) as Hmid.
      { destruct Hinv' as [Hstart Hfront Hmin Hdist Hclosed Hcount].
        split; simpl; [done| | |done| |lia].
        - intros x Hx. apply Hfront, Hmem. by right.
        - intros x Hx. apply Hmin, Hmem. by right.
        - intros u gu Hu.
          destruct (Hclosed u gu Hu) as [(x & Hx & Hxu)|[Hng Hsuccs]].
          2:{ right. split; [done|]. intros a u' Hau.
              destruct (Hsuccs a u' Hau) as [?|(_ & _ & Hnil)]; [by left|].
              by apply elem_of_nil in Hnil. }
          apply Hmem in Hx. destruct Hx as [->|Hx]; [|left; by eauto].
          simpl in Hxu. subst u. right. split; [done|].
          intros a u' Hau. right. split_and!; [done| |done]. congruence. }
      destruct (ucs_relax_fold_inv g state path _ st1 Hpath Hplen
                  (λ x Hx, Hx) Hmid) as [Hend Hle].
      split.
      * eapply ucs_inv_rebase; [exact Hend|]. intros; lia.
      * unfold ucs_measure in *. simpl in Hle. lia.
  - (* the frontier ran empty *)
    apply heappop_None in Hpop. simpl. split.
    + intros (q & t & Hq & Ht).
      assert (inv (length q) s0 [] st) as Hinv'.
      { eapply ucs_inv_rebase; [exact Hinv|]. rewrite Hpop.
        intros e He. by apply elem_of_nil in He. }
      destruct (ucs_cut _ _ _ _ q t Hinv' Hq) as [[g' Hg']|?]; [|lia].
      destruct (ucs_goal_on_frontier _ _ _ _ _ Hinv' Hg' Ht) as (e' & He' & _).
      rewrite Hpop in He'. by apply elem_of_nil in He'.
    + pose proof (ucs_inv_count _ _ _ _ _ _ _ _ _ Hinv). lia.
Qed.

Lemma ucs_measure_init :
  (measure (ucs_init start dirty) < search_fuel rows cols start dirty)%nat.
Proof.
  unfold ucs_measure, search_fuel. simpl.
  assert (size (state_space rows cols start dirty
                ∖ dom ({[ (start, dirty) := 0%nat ]} : gmap State nat))
          ≤ size (state_space rows cols start dirty))%nat
    by (apply subseteq_size; set_solver).
  lia.
Qed.

(** The search returns, and what it returns satisfies [ucs_post]. *)
Lemma ucs_returns :
  ∃ o, uniform_cost_search rows cols blocked start dirty = Some o ∧ post o.
Proof.
  unfold uniform_cost_search.
  apply (loop_total _ top post measure ucs_step_ok).
  - apply ucs_inv_init.
  - apply ucs_measure_init.
Qed.
End UniformCost.

(** * The claims *)

(** ** C2: the successor rule *)

(** C2.  For every state, bounds and blocked set, [successors] yields
    exactly the legal pairs in the canonical order: vacuum first, offered
    only when the agent's cell is dirty and leading to the same cell with
    that cell removed from the dirt; then north, south, east and west, each
    offered only when its destination is inside the grid and not blocked,
    and leading to the destination with the dirt unchanged. *)
Theorem successors_canonical_order
    (rows cols : Z) (blocked : gset Coord) (s : State) :
  successors s rows cols blocked = legal_successors rows cols blocked s.
Proof. apply successors_legal. Qed.

(** ** C4: a returned plan cleans everything *)

(** C4.  Whatever plan either search returns, applying its actions in
    order from the start state succeeds and ends with no dirt left. *)
Theorem returned_plan_reaches_goal
    (rows cols : Z) (blocked : gset Coord) (start : Coord) (dirty : gset Coord)
    (plan : list Action) (gen exp : nat) :
  depth_first_search rows cols blocked start dirty = Some (Some plan, gen, exp)
  ∨ uniform_cost_search rows cols blocked start dirty
    = Some (Returned (Some plan, gen, exp)) →
  ∃ t, apply_plan rows cols blocked (start, dirty) plan = Some t ∧ t.2 = ∅.
Proof.
  intros [Hdfs|Hucs].
  - destruct (dfs_returns rows cols blocked start dirty) as (r & Hr & Hpost).
    rewrite Hdfs in Hr. simplify_eq. by destruct Hpost.
  - destruct (ucs_returns rows cols blocked start dirty) as (o & Ho & Hpost).
    rewrite Hucs in Ho. simplify_eq. by destruct Hpost.
Qed.

Lemma returned_plan_reaches_goal_witness :
  ∃ t, apply_plan 1 3 ∅ ((0, 1), {[ (0, 0); (0, 2) ]})
         [East; Vac; West; West; Vac] = Some t ∧ t.2 = ∅.
Proof.
  apply (returned_plan_reaches_goal 1 3 ∅ (0, 1) {[ (0, 0); (0, 2) ]} _ 10 6).
  left. vm_compute. reflexivity.
Defined.

(** ** C3: uniform-cost search is optimal *)

(** C3.  When a goal can be reached from the start state, uniform-cost
    search returns a plan; the plan cleans everything, and no sequence of
    actions that cleans everything is shorter. *)
Theorem ucs_plan_is_shortest
    (rows cols : Z) (blocked : gset Coord) (start : Coord) (dirty : gset Coord) :
  goal_reachable rows cols blocked (start, dirty) →
  ∃ plan gen exp,
    uniform_cost_search rows cols blocked start dirty
    = Some (Returned (Some plan, gen, exp))
    ∧ (∃ t, apply_plan rows cols blocked (start, dirty) plan = Some t ∧ t.2 = ∅)
    ∧ ∀ q t, apply_plan rows cols blocked (start, dirty) q = Some t →
             t.2 = ∅ → (length plan ≤ length q)%nat.
Proof.
  intros Hreach.
  destruct (ucs_returns rows cols blocked start dirty) as (o & Ho & Hpost).
  destruct o as [[[[plan|] gen] exp]|]; simpl in Hpost.
  - exists plan, gen, exp. destruct Hpost as (Hgoal & Hshort & _). done.
  - by destruct Hpost.
  - done.
Qed.

Lemma ucs_plan_is_shortest_witness :
  ∃ plan gen exp,
    uniform_cost_search 1 3 ∅ (0, 1) {[ (0, 0); (0, 2) ]}
    = Some (Returned (Some plan, gen, exp))
    ∧ (∃ t, apply_plan 1 3 ∅ ((0, 1), {[ (0, 0); (0, 2) ]}) plan = Some t
            ∧ t.2 = ∅)
    ∧ ∀ q t, apply_plan 1 3 ∅ ((0, 1), {[ (0, 0); (0, 2) ]}) q = Some t →
             t.2 = ∅ → (length plan ≤ length q)%nat.
Proof.
  apply (ucs_plan_is_shortest 1 3 ∅ (0, 1) {[ (0, 0); (0, 2) ]}).
  exists [West; Vac; East; East; Vac]. eexists.
  split; [vm_compute; reflexivity|reflexivity].
Defined.

(** ** C5: depth-first search is complete *)

(** C5.  When a goal can be reached from the start state, depth-first
    search returns a plan, not the no-plan result, and the plan is a valid
    one: applied in order from the start state it ends with no dirt left.
    It need not be a shortest one. *)
Theorem dfs_finds_a_plan
    (rows cols : Z) (blocked : gset Coord) (start : Coord) (dirty : gset Coord) :
  goal_reachable rows cols blocked (start, dirty) →
  ∃ plan gen exp,
    depth_first_search rows cols blocked start dirty = Some (Some plan, gen, exp)
    ∧ ∃ t, apply_plan rows cols blocked (start, dirty) plan = Some t ∧ t.2 = ∅.
Proof.
  intros Hreach.
  destruct (dfs_returns rows cols blocked start dirty) as (r & Hr & Hpost).
  destruct r as [[[plan|] gen] exp]; simpl in Hpost.
  - exists plan, gen, exp. by destruct Hpost.
  - by destruct Hpost.
Qed.

Lemma dfs_finds_a_plan_witness :
  ∃ plan gen exp,
    depth_first_search 2 2 ∅ (0, 0) {[ (0, 1) ]} = Some (Some plan, gen, exp)
    ∧ ∃ t, apply_plan 2 2 ∅ ((0, 0), {[ (0, 1) ]}) plan = Some t ∧ t.2 = ∅.
Proof.
  apply (dfs_finds_a_plan 2 2 ∅ (0, 0) {[ (0, 1) ]}).
  exists [East; Vac]. eexists.
  split; [vm_compute; reflexivity|reflexivity].
Defined.

(** The plan need not be a shortest one: on a 2x2 grid with the dirt east
    of the agent, south is tried before east. *)
Example dfs_plan_not_shortest :
  depth_first_search 2 2 ∅ (0, 0) {[ (0, 1) ]}
  = Some (Some [South; East; North; Vac], 10%nat, 5%nat)
  ∧ uniform_cost_search 2 2 ∅ (0, 0) {[ (0, 1) ]}
    = Some (Returned (Some [East; Vac], 5%nat, 5%nat)).
Proof. split; vm_compute; reflexivity. Qed.

(** ** C1: the ordering scenario *)

(** C1, as the code has it.  On the 1x3 grid with the agent in the middle
    and dirt at both ends, [MOVE_DIRS] and [ACTION_ORDER] both list east
    before west: the start state's successors are east then west, both
    searches expand the east successor before the west one, and both
    return the plan that cleans the east end first. *)
Theorem ordering_scenario_east_first :
  depth_first_search 1 3 ∅ (0, 1) ordering_dirt
  = Some (Some [East; Vac; West; West; Vac], 10%nat, 6%nat)
  ∧ uniform_cost_search 1 3 ∅ (0, 1) ordering_dirt
    = Some (Returned (Some [East; Vac; West; West; Vac], 11%nat, 10%nat))
  ∧ expanded_before (dfs_expansion_order 1 3 ∅ (0, 1) ordering_dirt)
      ordering_east ordering_west = true
  ∧ expanded_before (ucs_expansion_order 1 3 ∅ (0, 1) ordering_dirt)
      ordering_east ordering_west = true
  ∧ (successors ((0, 1), ordering_dirt) 1 3 ∅).*1 = [East; West].
Proof. split_and!; vm_compute; reflexivity. Qed.

(** It is not so that both searches expand the west successor before the
    east one and return the west-first plan. *)
Lemma ordering_scenario_not_west_first :
  ¬ (expanded_before (dfs_expansion_order 1 3 ∅ (0, 1) ordering_dirt)
       ordering_west ordering_east = true
     ∧ expanded_before (ucs_expansion_order 1 3 ∅ (0, 1) ordering_dirt)
         ordering_west ordering_east = true
     ∧ (∃ gen exp, depth_first_search 1 3 ∅ (0, 1) ordering_dirt
                   = Some (Some [West; Vac; East; East; Vac], gen, exp))
     ∧ (∃ gen exp, uniform_cost_search 1 3 ∅ (0, 1) ordering_dirt
                   = Some (Returned (Some [West; Vac; East; East; Vac], gen, exp)))).
Proof. intros [Hdfs _]. vm_compute in Hdfs. discriminate. Qed.

(** Neither does, in fact. *)
Lemma ordering_scenario_west_never_first :
  expanded_before (dfs_expansion_order 1 3 ∅ (0, 1) ordering_dirt)
    ordering_west ordering_east = false
  ∧ expanded_before (ucs_expansion_order 1 3 ∅ (0, 1) ordering_dirt)
      ordering_west ordering_east = false
  ∧ hd_error (ucs_expansion_order 1 3 ∅ (0, 1) ordering_dirt)
    = Some ((0, 1), ordering_dirt).
Proof. split_and!; vm_compute; reflexivity. Qed.

(** ** C6: nothing raises *)

Lemma successors_actions (rows cols : Z) (blocked : gset Coord) (s : State) :
  (successors s rows cols blocked).*1
  = filter (applicable rows cols blocked s) ACTION_ORDER.
Proof.
  rewrite successors_legal. unfold legal_successors, offer, ACTION_ORDER.
  rewrite !fmap_app, !filter_cons, filter_nil.
  destruct (decide (applicable rows cols blocked s Vac));
    destruct (decide (applicable rows cols blocked s North));
    destruct (decide (applicable rows cols blocked s South));
    destruct (decide (applicable rows cols blocked s East));
    destruct (decide (applicable rows cols blocked s West)); reflexivity.
Qed.

(** C6.  The successor rule and the goal test are defined on every state:
    the actions offered are exactly those of the canonical order whose
    precondition holds, the others being left out; and each search returns
    a triple, whose plan is the no-plan value exactly when no goal can be
    reached. *)
Theorem core_never_raises
    (rows cols : Z) (blocked : gset Coord) (start : Coord) (dirty : gset Coord)
    (s : State) :
  (successors s rows cols blocked).*1
  = filter (applicable rows cols blocked s) ACTION_ORDER
  ∧ (is_goal s = true ↔ s.2 = ∅)
  ∧ (∃ plan gen exp,
       depth_first_search rows cols blocked start dirty = Some (plan, gen, exp)
       ∧ (plan = None ↔ ¬ goal_reachable rows cols blocked (start, dirty)))
  ∧ (∃ plan gen exp,
       uniform_cost_search rows cols blocked start dirty
       = Some (Returned (plan, gen, exp))
       ∧ (plan = None ↔ ¬ goal_reachable rows cols blocked (start, dirty))).
Proof.
  split_and!.
  - apply successors_actions.
  - apply is_goal_true.
  - destruct (dfs_returns rows cols blocked start dirty) as (r & Hr & Hpost).
    destruct r as [[[plan|] gen] exp]; simpl in Hpost.
    + eexists _, _, _. split; [done|]. destruct Hpost as [(t & Ht & Hgoal) _].
      split; [done|]. intros Hno. exfalso. apply Hno. by exists plan, t.
    + eexists _, _, _. split; [done|]. by destruct Hpost.
  - destruct (ucs_returns rows cols blocked start dirty) as (o & Ho & Hpost).
    destruct o as [[[[plan|] gen] exp]|]; simpl in Hpost; [| |done].
    + eexists _, _, _. split; [done|]. destruct Hpost as [(t & Ht & Hgoal) _].
      split; [done|]. intros Hno. exfalso. apply Hno. by exists plan, t.
    + eexists _, _, _. split; [done|]. by destruct Hpost.
Qed.

(** ** C7: the counters *)

Lemma dfs_clean_start (rows cols : Z) (blocked : gset Coord) (start : Coord) :
  depth_first_search rows cols blocked start ∅ = Some (Some [], 1%nat, 1%nat).
Proof.
  unfold depth_first_search. apply (loop_mono _ 1); [|unfold search_fuel; lia].
  simpl. unfold dfs_step. simpl. rewrite decide_False by set_solver.
  by rewrite (proj2 (is_goal_true (start, ∅))).
Qed.

Lemma ucs_clean_start (rows cols : Z) (blocked : gset Coord) (start : Coord) :
  uniform_cost_search rows cols blocked start ∅
  = Some (Returned (Some [], 1%nat, 1%nat)).
Proof.
  unfold uniform_cost_search. apply (loop_mono _ 1); [|unfold search_fuel; lia].
  simpl. unfold ucs_step. simpl. rewrite lookup_singleton_eq. simpl.
  by rewrite (proj2 (is_goal_true (start, ∅))).
Qed.

(** C7.  Each search returns counters with expanded at most generated, as
    they are at the head of every iteration on the way; and from a start
    state with no dirt each returns the empty plan with both counters 1. *)
Theorem counters_invariant
    (rows cols : Z) (blocked : gset Coord) (start : Coord) (dirty : gset Coord) :
  (∃ plan gen exp,
     depth_first_search rows cols blocked start dirty = Some (plan, gen, exp)
     ∧ (exp ≤ gen)%nat)
  ∧ (∃ plan gen exp,
       uniform_cost_search rows cols blocked start dirty
       = Some (Returned (plan, gen, exp))
       ∧ (exp ≤ gen)%nat)
  ∧ (∀ n st,
       iterate (dfs_step rows cols blocked) n (dfs_init start dirty) = Some st →
       (dfs_expanded st ≤ dfs_generated st)%nat)
  ∧ (∀ n st,
       iterate (ucs_step rows cols blocked) n (ucs_init start dirty) = Some st →
       (ucs_expanded st ≤ ucs_generated st)%nat)
  ∧ depth_first_search rows cols blocked start ∅ = Some (Some [], 1%nat, 1%nat)
  ∧ uniform_cost_search rows cols blocked start ∅
    = Some (Returned (Some [], 1%nat, 1%nat)).
Proof.
  split_and!.
  3:{ intros n st Hit.
      pose proof (iterate_inv _ _ _ _ (dfs_step_ok rows cols blocked start dirty)
                    n _ _ (dfs_inv_init rows cols blocked start dirty) Hit) as Hinv.
      pose proof (dfs_inv_count _ _ _ _ _ _ Hinv). lia. }
  3:{ intros n st Hit.
      pose proof (iterate_inv _ _ _ _ (ucs_step_ok rows cols blocked start dirty)
                    n _ _ (ucs_inv_init rows cols blocked start dirty) Hit) as Hinv.
      pose proof (ucs_inv_count _ _ _ _ _ _ _ _ _ Hinv). lia. }
  - destruct (dfs_returns rows cols blocked start dirty) as (r & Hr & Hpost).
    destruct r as [[[plan|] gen] exp]; simpl in Hpost;
      eexists _, _, _; (split; [done|]); by destruct Hpost.
  - destruct (ucs_returns rows cols blocked start dirty) as (o & Ho & Hpost).
    destruct o as [[[[plan|] gen] exp]|]; simpl in Hpost; [| |done];
      eexists _, _, _; (split; [done|]); naive_solver.
  - apply dfs_clean_start.
  - apply ucs_clean_start.
Qed.

(** ** C8: stale frontier entries *)

(** C8.  When the entry popped from the frontier costs more than the best
    cost recorded for its state, the iteration only drops it: nothing is
    counted, tested or expanded.  Otherwise the iteration counts exactly
    one more expanded node. *)
Theorem ucs_stale_entry_discarded
    (rows cols : Z) (blocked : gset Coord) (st : ucs_state)
    (e : entry) (frontier : list entry) (best : nat) :
  heappop (ucs_frontier st) = Some (e, frontier) →
  ucs_g_best st !! e_state e = Some best →
  ((best < e_cost e)%nat →
     ucs_step rows cols blocked st
     = inr (UcsState frontier (ucs_g_best st) (ucs_counter st)
              (ucs_generated st) (ucs_expanded st))
     ∧ ucs_expands st = None)
  ∧ (¬ (best < e_cost e)%nat →
       ucs_expands st = Some (e_state e)
       ∧ match ucs_step rows cols blocked st with
         | inl (Returned (_, _, exp)) => exp = S (ucs_expanded st)
         | inl KeyError => False
         | inr st' => ucs_expanded st' = S (ucs_expanded st)
         end).
Proof.
  intros Hpop Hbest. unfold ucs_step, ucs_expands. rewrite Hpop.
  destruct e as [g n state path]. simpl in *. rewrite Hbest. split.
  - intros Hlt. by rewrite (proj2 (Nat.ltb_lt _ _) Hlt).
  - intros Hge. rewrite (proj2 (Nat.ltb_ge _ _)) by lia. split; [done|].
    destruct (is_goal state); [done|]. by rewrite ucs_relax_fold_expanded.
Qed.

Lemma ucs_stale_entry_discarded_witness :
  ((1 < 3)%nat →
     ucs_step 1 1 ∅ stale_frontier
     = inr (UcsState [] {[ ((0, 0), ∅) := 1%nat ]} 8 5 2)
     ∧ ucs_expands stale_frontier = None)
  ∧ (¬ (1 < 3)%nat →
       ucs_expands stale_frontier = Some ((0, 0), ∅)
       ∧ match ucs_step 1 1 ∅ stale_frontier with
         | inl (Returned (_, _, exp)) => exp = 3%nat
         | inl KeyError => False
         | inr st' => ucs_expanded st' = 3%nat
         end).
Proof.
  apply (ucs_stale_entry_discarded 1 1 ∅ stale_frontier
           (Entry 3 7 ((0, 0), ∅) [West]) [] 1).
  - reflexivity.
  - vm_compute. reflexivity.
Defined.

(** ** C9: termination *)

(** C9.  Both searches terminate with a returned triple: the fuel
    [search_fuel] is enough, and more fuel changes nothing. *)
Theorem searches_terminate
    (rows cols : Z) (blocked : gset Coord) (start : Coord) (dirty : gset Coord) :
  (∃ r, depth_first_search rows cols blocked start dirty = Some r
        ∧ ∀ fuel, (search_fuel rows cols start dirty ≤ fuel)%nat →
            loop (dfs_step rows cols blocked) fuel (dfs_init start dirty) = Some r)
  ∧ (∃ r, uniform_cost_search rows cols blocked start dirty = Some (Returned r)
          ∧ ∀ fuel, (search_fuel rows cols start dirty ≤ fuel)%nat →
              loop (ucs_step rows cols blocked) fuel (ucs_init start dirty)
              = Some (Returned r)).
Proof.
  split.
  - destruct (dfs_returns rows cols blocked start dirty) as (r & Hr & _).
    exists r. split; [done|]. intros fuel Hle. by eapply loop_mono.
  - destruct (ucs_returns rows cols blocked start dirty) as (o & Ho & Hpost).
    destruct o as [r|]; [|done].
    exists r. split; [done|]. intros fuel Hle. by eapply loop_mono.
Qed.

(** ** C10: the lookup [g_best[state]] *)

(** C10.  At the head of every iteration each state on the frontier is a
    key of [g_best], so the loop is never left with a [KeyError],
    whatever the fuel. *)
Theorem ucs_lookup_never_fails
    (rows cols : Z) (blocked : gset Coord) (start : Coord) (dirty : gset Coord) :
  (∀ n st,
     iterate (ucs_step rows cols blocked) n (ucs_init start dirty) = Some st →
     ∀ e, e ∈ ucs_frontier st → e_state e ∈ dom (ucs_g_best st))
  ∧ (∀ fuel,
       loop (ucs_step rows cols blocked) fuel (ucs_init start dirty)
       ≠ Some KeyError)
  ∧ uniform_cost_search rows cols blocked start dirty ≠ Some KeyError.
Proof.
  pose proof (ucs_step_ok rows cols blocked start dirty) as Hok.
  pose proof (ucs_inv_init rows cols blocked start dirty) as Hinit.
  split_and!.
  - intros n st Hit e He.
    pose proof (iterate_inv _ _ _ _ Hok n _ _ Hinit Hit) as Hinv.
    destruct (ucs_inv_frontier _ _ _ _ _ _ _ _ _ Hinv e He) as (_ & _ & Hbest).
    apply elem_of_dom. by eexists.
  - intros fuel Hloop. by apply (loop_partial _ _ _ _ Hok fuel _ _ Hinit Hloop).
  - intros Hloop.
    by apply (loop_partial _ _ _ _ Hok _ _ _ Hinit Hloop).
Qed.

(** * Further properties *)

(** ** Plans and the cells they pass *)

Section PlanFacts.
Variables (rows cols : Z) (blocked : gset Coord).

Lemma apply_plan_app s p q :
  apply_plan rows cols blocked s (p ++ q) =
  apply_plan rows cols blocked s p ≫= λ t, apply_plan rows cols blocked t q.
Proof.
  revert s. induction p as [|a p IH]; intros s; simpl; [done|].
  destruct (apply_action rows cols blocked s a); [apply IH|done].
Qed.

(** What one action does to the state. *)
Lemma apply_action_cases s a t :
  apply_action rows cols blocked s a = Some t →
  (a = Vac ∧ s.1 ∈ s.2 ∧ t = (s.1, s.2 ∖ {[ s.1 ]}))
  ∨ (a ≠ Vac ∧ t = (destination a s.1, s.2)
     ∧ in_bounds rows cols t.1 ∧ t.1 ∉ blocked).
Proof.
  rewrite apply_action_Some, elem_of_successors. intros [Happ ->].
  destruct a; simpl in *; [left|right..]; naive_solver.
Qed.

Lemma size_vacuumed (d : gset Coord) (p : Coord) :
  p ∈ d → S (size (d ∖ {[ p ]})) = size d.
Proof.
  intros Hp. rewrite size_difference by set_solver. rewrite size_singleton.
  assert (size d ≠ 0)%nat by (apply size_non_empty_iff; set_solver). lia.
Qed.

(** Each ['V'] takes one cell off the dirt and nothing else does. *)
Lemma apply_plan_vacuums s plan t :
  apply_plan rows cols blocked s plan = Some t →
  size s.2 = (size t.2 + vacuums plan)%nat.
Proof.
  revert s. induction plan as [|a plan IH]; intros s Ht; simpl in Ht.
  - simplify_eq. unfold vacuums. simpl. lia.
  - destruct (apply_action rows cols blocked s a) as [u|] eqn:Hu; [|done].
    specialize (IH u Ht). unfold vacuums in *. rewrite filter_cons.
    destruct (apply_action_cases s a u Hu) as [(-> & Hin & ->)|(Hne & -> & _)].
    + rewrite decide_True by done. simpl in *.
      pose proof (size_vacuumed s.2 s.1 Hin). lia.
    + rewrite decide_False by done. simpl in *. lia.
Qed.

(** The agent is on the cell it started on or on a free cell of the grid,
    and the dirt only shrinks. *)
Lemma reachable_cell start dirty plan t :
  apply_plan rows cols blocked (start, dirty) plan = Some t →
  (t.1 = start ∨ (in_bounds rows cols t.1 ∧ t.1 ∉ blocked)) ∧ t.2 ⊆ dirty.
Proof.
  revert t. induction plan as [|a plan IH] using rev_ind; intros t Ht.
  - simpl in Ht. simplify_eq. simpl. split; [by left|done].
  - rewrite apply_plan_snoc in Ht.
    destruct (apply_plan rows cols blocked (start, dirty) plan) as [u|]; [|done].
    simpl in Ht. destruct (IH u eq_refl) as [Hcell Hdirt].
    destruct (apply_action_cases u a t Ht) as [(_ & _ & ->)|(_ & -> & ? & ?)];
      simpl in *; (split; [by auto|set_solver]).
Qed.

(** A dirty cell the agent cannot stand on stays dirty. *)
Lemma unreachable_cell_stays_dirty start dirty d plan t :
  d ∈ dirty → d ≠ start → ¬ in_bounds rows cols d ∨ d ∈ blocked →
  apply_plan rows cols blocked (start, dirty) plan = Some t → d ∈ t.2.
Proof.
  intros Hd Hstart Hoff. revert t.
  induction plan as [|a plan IH] using rev_ind; intros t Ht.
  - simpl in Ht. by simplify_eq.
  - rewrite apply_plan_snoc in Ht.
    destruct (apply_plan rows cols blocked (start, dirty) plan) as [u|] eqn:Hu;
      [|done].
    simpl in Ht. specialize (IH u eq_refl).
    destruct (reachable_cell _ _ _ _ Hu) as [Hcell _].
    destruct (apply_action_cases u a t Ht) as [(_ & _ & ->)|(_ & -> & _)];
      simpl; [|done].
    apply elem_of_difference. split; [done|].
    rewrite elem_of_singleton. intros ->. naive_solver.
Qed.

Lemma successors_NoDup_actions s :
  NoDup (successors s rows cols blocked).*1.
Proof.
  rewrite successors_actions. apply NoDup_filter.
  unfold ACTION_ORDER. by repeat (apply NoDup_cons; split; [set_solver|]);
    apply NoDup_nil_2.
Qed.
End PlanFacts.

(** X1.  From a start cell that is a free cell of the grid, no sequence of
    actions takes the agent off the grid or onto a blocked cell, and none
    adds dirt; the same holds of every state either search holds on its
    frontier. *)
Theorem agent_stays_on_free_cells
    (rows cols : Z) (blocked : gset Coord) (start : Coord) (dirty : gset Coord) :
  in_bounds rows cols start → start ∉ blocked →
  (∀ plan t, apply_plan rows cols blocked (start, dirty) plan = Some t →
     in_bounds rows cols t.1 ∧ (t.1 ∉ blocked) ∧ t.2 ⊆ dirty)
  ∧ (∀ n st s p,
       iterate (dfs_step rows cols blocked) n (dfs_init start dirty) = Some st →
       (s, p) ∈ dfs_stack st →
       in_bounds rows cols s.1 ∧ (s.1 ∉ blocked) ∧ s.2 ⊆ dirty)
  ∧ (∀ n st e,
       iterate (ucs_step rows cols blocked) n (ucs_init start dirty) = Some st →
       e ∈ ucs_frontier st →
       in_bounds rows cols (e_state e).1 ∧ ((e_state e).1 ∉ blocked)
       ∧ (e_state e).2 ⊆ dirty).
Proof.
  intros Hin Hfree.
  assert (∀ plan t, apply_plan rows cols blocked (start, dirty) plan = Some t →
            in_bounds rows cols t.1 ∧ (t.1 ∉ blocked) ∧ t.2 ⊆ dirty) as Hplan.
  { intros plan t Ht. destruct (reachable_cell _ _ _ _ _ _ _ Ht) as [[->|[? ?]] ?];
      done. }
  split_and!; [done| |].
  - intros n st s p Hit Hsp.
    pose proof (iterate_inv _ _ _ _ (dfs_step_ok rows cols blocked start dirty)
                  n _ _ (dfs_inv_init rows cols blocked start dirty) Hit) as Hinv.
    eapply Hplan. by apply (dfs_inv_paths _ _ _ _ _ _ Hinv).
  - intros n st e Hit He.
    pose proof (iterate_inv _ _ _ _ (ucs_step_ok rows cols blocked start dirty)
                  n _ _ (ucs_inv_init rows cols blocked start dirty) Hit) as Hinv.
    destruct (ucs_inv_frontier _ _ _ _ _ _ _ _ _ Hinv e He) as (Hpath & _).
    by eapply Hplan.
Qed.

Lemma agent_stays_on_free_cells_witness :
  (∀ plan t, apply_plan 1 3 ∅ ((0, 1), ordering_dirt) plan = Some t →
     in_bounds 1 3 t.1 ∧ (t.1 ∉ (∅ : gset Coord)) ∧ t.2 ⊆ ordering_dirt)
  ∧ (∀ n st s p,
       iterate (dfs_step 1 3 ∅) n (dfs_init (0, 1) ordering_dirt) = Some st →
       (s, p) ∈ dfs_stack st →
       in_bounds 1 3 s.1 ∧ (s.1 ∉ (∅ : gset Coord)) ∧ s.2 ⊆ ordering_dirt)
  ∧ (∀ n st e,
       iterate (ucs_step 1 3 ∅) n (ucs_init (0, 1) ordering_dirt) = Some st →
       e ∈ ucs_frontier st →
       in_bounds 1 3 (e_state e).1 ∧ ((e_state e).1 ∉ (∅ : gset Coord))
       ∧ (e_state e).2 ⊆ ordering_dirt).
Proof.
  apply (agent_stays_on_free_cells 1 3 ∅ (0, 1) ordering_dirt).
  - unfold in_bounds. simpl. lia.
  - set_solver.
Defined.

(** X2.  A plan returned by either search has exactly one ['V'] per cell
    of the initial dirt, so it is at least as long as there are dirty
    cells. *)
Theorem returned_plan_vacuums_once_per_cell
    (rows cols : Z) (blocked : gset Coord) (start : Coord) (dirty : gset Coord)
    (plan : list Action) (gen exp : nat) :
  depth_first_search rows cols blocked start dirty = Some (Some plan, gen, exp)
  ∨ uniform_cost_search rows cols blocked start dirty
    = Some (Returned (Some plan, gen, exp)) →
  vacuums plan = size dirty ∧ (size dirty ≤ length plan)%nat.
Proof.
  intros Hret.
  assert (∃ t, apply_plan rows cols blocked (start, dirty) plan = Some t
               ∧ t.2 = ∅) as (t & Ht & Hclean).
  { destruct Hret as [Hdfs|Hucs].
    - destruct (dfs_returns rows cols blocked start dirty) as (r & Hr & Hpost).
      rewrite Hdfs in Hr. simplify_eq. by destruct Hpost.
    - destruct (ucs_returns rows cols blocked start dirty) as (o & Ho & Hpost).
      rewrite Hucs in Ho. simplify_eq. by destruct Hpost. }
  pose proof (apply_plan_vacuums _ _ _ _ _ _ Ht) as Hsize.
  rewrite Hclean, size_empty in Hsize. simpl in Hsize.
  split; [lia|]. rewrite Hsize. unfold vacuums. apply length_filter.
Qed.

Lemma returned_plan_vacuums_once_per_cell_witness :
  vacuums [East; Vac; West; West; Vac] = size ordering_dirt
  ∧ (size ordering_dirt ≤ length [East; Vac; West; West; Vac])%nat.
Proof.
  apply (returned_plan_vacuums_once_per_cell 1 3 ∅ (0, 1) ordering_dirt _ 10 6).
  left. vm_compute. reflexivity.
Defined.

(** X3.  When some dirty cell other than the start cell lies outside the
    grid or is blocked, no plan exists, and both searches return the
    no-plan value. *)
Theorem dirt_off_the_free_cells_has_no_plan
    (rows cols : Z) (blocked : gset Coord) (start : Coord) (dirty : gset Coord)
    (d : Coord) :
  d ∈ dirty → d ≠ start → ¬ in_bounds rows cols d ∨ d ∈ blocked →
  ¬ goal_reachable rows cols blocked (start, dirty)
  ∧ (∃ gen exp,
       depth_first_search rows cols blocked start dirty = Some (None, gen, exp))
  ∧ (∃ gen exp,
       uniform_cost_search rows cols blocked start dirty
       = Some (Returned (None, gen, exp))).
Proof.
  intros Hd Hstart Hoff.
  assert (¬ goal_reachable rows cols blocked (start, dirty)) as Hno.
  { intros (plan & t & Ht & Hclean).
    pose proof (unreachable_cell_stays_dirty _ _ _ _ _ _ _ _ Hd Hstart Hoff Ht).
    set_solver. }
  split_and!; [done| |].
  - destruct (dfs_returns rows cols blocked start dirty) as (r & Hr & Hpost).
    destruct r as [[[plan|] gen] exp]; simpl in Hpost; [|by eauto].
    destruct Hpost as [(t & Ht & Hclean) _]. exfalso. apply Hno. by exists plan, t.
  - destruct (ucs_returns rows cols blocked start dirty) as (o & Ho & Hpost).
    destruct o as [[[[plan|] gen] exp]|]; simpl in Hpost; [|by eauto|done].
    destruct Hpost as [(t & Ht & Hclean) _]. exfalso. apply Hno. by exists plan, t.
Qed.

Lemma dirt_off_the_free_cells_has_no_plan_witness :
  ¬ goal_reachable 1 3 {[ (0, 2) ]} ((0, 0), {[ (0, 2) ]})
  ∧ (∃ gen exp,
       depth_first_search 1 3 {[ (0, 2) ]} (0, 0) {[ (0, 2) ]}
       = Some (None, gen, exp))
  ∧ (∃ gen exp,
       uniform_cost_search 1 3 {[ (0, 2) ]} (0, 0) {[ (0, 2) ]}
       = Some (Returned (None, gen, exp))).
Proof.
  apply (dirt_off_the_free_cells_has_no_plan 1 3 {[ (0, 2) ]} (0, 0) {[ (0, 2) ]}
           (0, 2)).
  - set_solver.
  - done.
  - right. set_solver.
Defined.

(** X4.  The two searches agree on whether there is a plan, and the plan
    of uniform-cost search is never longer than that of depth-first
    search. *)
Theorem searches_agree
    (rows cols : Z) (blocked : gset Coord) (start : Coord) (dirty : gset Coord) :
  ∃ dplan dgen dexp uplan ugen uexp,
    depth_first_search rows cols blocked start dirty = Some (dplan, dgen, dexp)
    ∧ uniform_cost_search rows cols blocked start dirty
      = Some (Returned (uplan, ugen, uexp))
    ∧ (dplan = None ↔ uplan = None)
    ∧ ∀ p q, dplan = Some p → uplan = Some q → (length q ≤ length p)%nat.
Proof.
  destruct (dfs_returns rows cols blocked start dirty) as (r & Hr & Hdpost).
  destruct (ucs_returns rows cols blocked start dirty) as (o & Ho & Hupost).
  destruct r as [[dplan dgen] dexp]. destruct o as [[[uplan ugen] uexp]|]; [|done].
  exists dplan, dgen, dexp, uplan, ugen, uexp. split_and!; [done..| |].
  - destruct dplan as [p|], uplan as [q|]; simpl in *; [done| | |done].
    + destruct Hdpost as [(t & Ht & Hclean) _], Hupost as [Hno _].
      exfalso. apply Hno. by exists p, t.
    + destruct Hupost as [(t & Ht & Hclean) _], Hdpost as [Hno _].
      exfalso. apply Hno. by exists q, t.
  - intros p q -> ->. simpl in *.
    destruct Hdpost as [(t & Ht & Hclean) _], Hupost as (_ & Hshort & _).
    by eapply Hshort.
Qed.

(** X5.  [successors] offers no action twice and no state twice, and never
    the state it starts from: ['V'] keeps the cell and takes exactly one
    cell off the dirt, a move keeps the dirt and goes to a cell one step
    away. *)
Theorem successors_change_the_state
    (rows cols : Z) (blocked : gset Coord) (s : State) :
  NoDup (successors s rows cols blocked).*1
  ∧ NoDup (successors s rows cols blocked).*2
  ∧ ∀ a t, (a, t) ∈ successors s rows cols blocked →
      t ≠ s
      ∧ (a = Vac → t.1 = s.1 ∧ S (size t.2) = size s.2)
      ∧ (a ≠ Vac →
           t.2 = s.2
           ∧ Z.abs (t.1.1 - s.1.1) + Z.abs (t.1.2 - s.1.2) = 1).
Proof.
  assert (∀ a t, (a, t) ∈ successors s rows cols blocked →
      t ≠ s
      ∧ (a = Vac → t.1 = s.1 ∧ S (size t.2) = size s.2)
      ∧ (a ≠ Vac →
           t.2 = s.2
           ∧ Z.abs (t.1.1 - s.1.1) + Z.abs (t.1.2 - s.1.2) = 1)) as Hshape.
  { intros a t Hat. apply apply_action_Some in Hat.
    destruct (apply_action_cases _ _ _ _ _ _ Hat) as [(-> & Hin & ->)|(Hne & -> & _)].
    - pose proof (size_vacuumed s.2 s.1 Hin) as Hsize. split_and!; [|done|done].
      intros Heq. apply (f_equal snd) in Heq. simpl in Heq.
      rewrite Heq in Hsize. lia.
    - destruct s as [[r c] d]. split_and!; [|done|].
      + intros Heq. destruct a; simpl in Heq; simplify_eq; lia.
      + intros _. split; [done|]. destruct a; simpl; try done; lia. }
  split_and!; [apply successors_NoDup_actions| |done].
  rewrite successors_legal. unfold legal_successors, offer.
  destruct s as [[r c] d].
  repeat destruct (decide (applicable rows cols blocked _ _)) as [?|?];
    simpl; repeat (apply NoDup_cons; split); try apply NoDup_nil_2;
    rewrite ?elem_of_cons, ?elem_of_nil; try done; intros Heq;
    repeat destruct Heq as [Heq|Heq]; try done; simplify_eq; lia.
Qed.

(** ** The size of the state space *)

Lemma size_list_to_set_le (l : list State) :
  (size (list_to_set l : gset State) ≤ length l)%nat.
Proof.
  induction l as [|x l IH]; [by rewrite list_to_set_nil, size_empty|].
  rewrite list_to_set_cons, size_union_alt, size_singleton. simpl.
  assert (size (list_to_set l ∖ {[ x ]} : gset State)
          ≤ size (list_to_set l : gset State))%nat
    by (apply subseteq_size; set_solver).
  lia.
Qed.

Lemma length_bind_const {A B} (f : A → list B) (l : list A) (n : nat) :
  (∀ x, length (f x) = n) → length (l ≫= f) = (length l * n)%nat.
Proof.
  intros Hf. induction l as [|x l IH]; [done|].
  change ((x :: l) ≫= f) with (f x ++ (l ≫= f)).
  rewrite length_app, Hf, IH. simpl. lia.
Qed.

Lemma length_subsets (l : list Coord) : length (subsets l) = (2 ^ length l)%nat.
Proof.
  induction l as [|x l IH]; simpl; [done|].
  rewrite length_app, length_fmap, IH. lia.
Qed.

Lemma length_grid_cells (rows cols : Z) :
  length (grid_cells rows cols) = (Z.to_nat rows * Z.to_nat cols)%nat.
Proof.
  unfold grid_cells.
  rewrite (length_bind_const _ _ (Z.to_nat cols)), length_seqZ; [done|].
  intros r. rewrite (length_bind_const _ _ 1), length_seqZ; [lia|done].
Qed.

Lemma size_state_space rows cols start dirty :
  (size (state_space rows cols start dirty) ≤ space_bound rows cols dirty)%nat.
Proof.
  unfold state_space, space_bound. etrans; [apply size_list_to_set_le|].
  rewrite (length_bind_const _ _ (2 ^ size dirty)).
  - simpl. rewrite length_grid_cells. lia.
  - intros p. rewrite (length_bind_const _ _ 1); [|done].
    rewrite length_subsets. unfold size, set_size. simpl. lia.
Qed.

Lemma NoDup_in_space (l : list State) (space : gset State) :
  NoDup l → (∀ x, x ∈ l → x ∈ space) → (length l ≤ size space)%nat.
Proof.
  intros Hnodup Hsub. rewrite <- (size_list_to_set (C := gset State)) by done.
  apply subseteq_size. intros x. rewrite elem_of_list_to_set. apply Hsub.
Qed.

(** ** The states along a plan *)

Section PlanStates.
Variables (rows cols : Z) (blocked : gset Coord).

Lemma states_before_snoc s p a u :
  apply_plan rows cols blocked s p = Some u →
  states_before rows cols blocked s (p ++ [a])
  = states_before rows cols blocked s p ++ [u].
Proof.
  revert s. induction p as [|b p IH]; intros s Hu; simpl in *.
  - simplify_eq. by destruct (apply_action rows cols blocked u a).
  - destruct (apply_action rows cols blocked s b) as [s'|]; [|done].
    by rewrite (IH s' Hu).
Qed.

Lemma plan_states_last s p t :
  apply_plan rows cols blocked s p = Some t →
  plan_states rows cols blocked s p = states_before rows cols blocked s p ++ [t].
Proof.
  revert s. induction p as [|b p IH]; intros s Ht; simpl in *.
  - by simplify_eq.
  - destruct (apply_action rows cols blocked s b) as [s'|]; [|done].
    by rewrite (IH s' Ht).
Qed.

Lemma length_plan_states s p t :
  apply_plan rows cols blocked s p = Some t →
  length (plan_states rows cols blocked s p) = S (length p).
Proof.
  revert s. induction p as [|b p IH]; intros s Ht; simpl in *; [done|].
  destruct (apply_action rows cols blocked s b) as [s'|]; [|done].
  by rewrite (IH s' Ht).
Qed.

(** Each state along a plan is reached by a plan of its own. *)
Lemma plan_states_reached s p x :
  x ∈ plan_states rows cols blocked s p →
  ∃ q, apply_plan rows cols blocked s q = Some x.
Proof.
  revert s. induction p as [|b p IH]; intros s Hx; simpl in Hx.
  - apply list_elem_of_singleton in Hx. subst. by exists [].
  - apply elem_of_cons in Hx. destruct Hx as [->|Hx]; [by exists []|].
    destruct (apply_action rows cols blocked s b) as [s'|] eqn:Hs';
      [|by apply elem_of_nil in Hx].
    destruct (IH s' Hx) as [q Hq]. exists (b :: q). simpl. by rewrite Hs'.
Qed.

(** From any state along a plan, the rest of the plan finishes it. *)
Lemma plan_states_rest s p t x :
  apply_plan rows cols blocked s p = Some t →
  x ∈ plan_states rows cols blocked s p →
  ∃ q, apply_plan rows cols blocked x q = Some t ∧ (length q ≤ length p)%nat.
Proof.
  revert s. induction p as [|b p IH]; intros s Ht Hx; simpl in *.
  - apply list_elem_of_singleton in Hx. simplify_eq. by exists [].
  - apply elem_of_cons in Hx. destruct Hx as [->|Hx].
    + exists (b :: p). split; [done|simpl; lia].
    + destruct (apply_action rows cols blocked s b) as [s'|] eqn:Hs'; [|done].
      destruct (IH s' Ht Hx) as (q & Hq & Hle). exists q. split; [done|simpl; lia].
Qed.

(** A plan that passes a state twice can be cut short. *)
Lemma plan_shortcut s p t :
  apply_plan rows cols blocked s p = Some t →
  ¬ NoDup (plan_states rows cols blocked s p) →
  ∃ q, apply_plan rows cols blocked s q = Some t ∧ (length q < length p)%nat.
Proof.
  revert s. induction p as [|b p IH]; intros s Ht Hdup; simpl in *.
  - exfalso. apply Hdup, NoDup_singleton.
  - destruct (apply_action rows cols blocked s b) as [s'|] eqn:Hs'; [|done].
    destruct (decide (s ∈ plan_states rows cols blocked s' p)) as [Hin|Hnotin].
    + destruct (plan_states_rest s' p t s Ht Hin) as (q & Hq & Hle).
      exists q. split; [done|lia].
    + destruct (IH s' Ht) as (q & Hq & Hlt).
      { intros Hnodup. apply Hdup. by apply NoDup_cons. }
      exists (b :: q). simpl. rewrite Hs'. split; [done|lia].
Qed.
End PlanStates.

(** ** What depth-first search counts *)

Section DepthFirstTally.
Variables (rows cols : Z) (blocked : gset Coord).
Variables (start : Coord) (dirty : gset Coord).

Local Abbreviation s0 := (start, dirty).
Local Abbreviation inv := (dfs_inv rows cols blocked start dirty).
Local Abbreviation tally := (dfs_tally rows cols blocked start dirty).
Local Abbreviation space := (state_space rows cols start dirty).

Lemma dfs_tally_init : tally (dfs_init start dirty).
Proof.
  split.
  - change (0%nat = size (∅ : gset State)). by rewrite size_empty.
  - simpl. lia.
  - simpl. intros s p Hsp. apply list_elem_of_singleton in Hsp. simplify_eq. simpl.
    split; [apply NoDup_nil_2|]. intros x Hx. by apply elem_of_nil in Hx.
Qed.

Lemma dfs_visited_in_space st :
  inv st → dfs_visited st ⊆ space.
Proof.
  intros Hinv v Hv. destruct (dfs_inv_visited _ _ _ _ _ _ Hinv v Hv) as [[p Hp] _].
  by eapply reachable_state_space.
Qed.

Lemma dfs_step_tally_ok :
  step_ok (dfs_step rows cols blocked)
    (λ st, inv st ∧ tally st)
    (λ r, dfs_post rows cols blocked start dirty r
          ∧ dfs_tally_post rows cols blocked start dirty r)
    (dfs_measure rows cols start dirty).
Proof.
  intros st [Hinv Htally].
  pose proof (dfs_step_ok rows cols blocked start dirty st Hinv) as Hok.
  pose proof (dfs_visited_in_space st Hinv) as Hsub.
  destruct Htally as [Hexp Hgen Hsimple].
  destruct (dfs_stack st) as [|[state path] stack] eqn:Hstack.
  - (* the frontier ran empty *)
    unfold dfs_step in *. rewrite Hstack in *. split; [done|].
    split_and!; simpl; [done| |done]. rewrite Hexp. by apply subseteq_size.
  - assert (plan_to rows cols blocked start dirty path state) as Hpath
      by (apply (dfs_inv_paths _ _ _ _ _ _ Hinv); rewrite Hstack; left).
    destruct (Hsimple state path) as [Hnodup Hbefore]; [left|].
    destruct (decide (state ∈ dfs_visited st)) as [Hin|Hnotin].
    + (* already visited: dropped *)
      unfold dfs_step in *. rewrite Hstack, decide_True in * by done.
      destruct Hok as [Hinv' Hdec]. split; [|done]. split; [done|].
      split; simpl; [done..|]. intros s p Hsp. apply (Hsimple s p). by right.
    + assert (S (size (dfs_visited st)) ≤ size space)%nat as Hroom.
      { assert (size ({[ state ]} ∪ dfs_visited st) ≤ size space)%nat as Hle.
        { apply subseteq_size. apply union_least; [|done].
          apply singleton_subseteq_l. by eapply reachable_state_space. }
        rewrite size_union, size_singleton in Hle by set_solver. lia. }
      destruct (is_goal state) eqn:Hgoal.
      * (* a goal: returned *)
        unfold dfs_step in *. rewrite Hstack, decide_False, Hgoal in * by done.
        split; [done|]. split_and!; simpl; [lia|lia|].
        rewrite (plan_states_last _ _ _ _ _ _ Hpath).
        apply NoDup_app. split_and!; [done| |apply NoDup_singleton].
        intros x Hx Hx'. apply list_elem_of_singleton in Hx'. subst x.
        by apply Hnotin, Hbefore.
      * (* expanded *)
        rewrite (dfs_step_expand rows cols blocked st state path stack) in *
          by done.
        destruct Hok as [Hinv' Hdec]. split; [|done]. split; [done|].
        pose proof (length_successors rows cols blocked state) as Hlen.
        split; simpl.
        -- rewrite size_union by set_solver. rewrite size_singleton. lia.
        -- lia.
        -- intros s p Hsp. apply elem_of_app in Hsp. destruct Hsp as [Hsp|Hsp].
           ++ apply list_elem_of_fmap in Hsp. destruct Hsp as ([a s'] & ? & Has).
              simplify_eq. simpl.
              rewrite (states_before_snoc _ _ _ _ _ _ state Hpath). split.
              ** apply NoDup_app. split_and!; [done| |apply NoDup_singleton].
                 intros x Hx Hx'. apply list_elem_of_singleton in Hx'. subst x.
                 by apply Hnotin, Hbefore.
              ** intros x Hx. apply elem_of_app in Hx. destruct Hx as [Hx|Hx].
                 --- apply elem_of_union. right. by apply Hbefore.
                 --- apply list_elem_of_singleton in Hx. subst x. set_solver.
           ++ destruct (Hsimple s p) as [? Hbefore']; [by right|].
              split; [done|]. intros x Hx. apply elem_of_union. right.
              by apply Hbefore'.
Qed.

Lemma dfs_returns_tally :
  ∃ r, depth_first_search rows cols blocked start dirty = Some r
       ∧ dfs_post rows cols blocked start dirty r
       ∧ dfs_tally_post rows cols blocked start dirty r.
Proof.
  unfold depth_first_search.
  apply (loop_total _ _ _ _ dfs_step_tally_ok).
  - split; [apply dfs_inv_init|apply dfs_tally_init].
  - apply dfs_measure_init.
Qed.
End DepthFirstTally.

(** ** What uniform-cost search counts *)

Section UniformCostTally.
Variables (rows cols : Z) (blocked : gset Coord).
Variables (start : Coord) (dirty : gset Coord).

Local Abbreviation s0 := (start, dirty).
Local Abbreviation leads := (plan_to rows cols blocked start dirty).
Local Abbreviation inv := (ucs_inv rows cols blocked start dirty).
Local Abbreviation top := (ucs_top rows cols blocked start dirty).
Local Abbreviation space := (state_space rows cols start dirty).

Lemma ucs_tally_init : ucs_tally (ucs_init start dirty).
Proof.
  split.
  - change (1%nat = size (dom ({[ s0 := 0%nat ]} : gmap State nat))).
    by rewrite dom_singleton_L, size_singleton.
  - simpl. apply NoDup_singleton.
  - done.
Qed.

Lemma ucs_recorded_in_space m s rem st :
  inv m s rem st → dom (ucs_g_best st) ⊆ space.
Proof.
  intros Hinv u Hu. apply elem_of_dom in Hu. destruct Hu as [g Hg].
  destruct (ucs_inv_dist _ _ _ _ _ _ _ _ _ Hinv u g Hg) as [(p & Hp & _) _].
  by eapply reachable_state_space.
Qed.

(** One round of the inner loop pushes a state only when it is new. *)
Lemma ucs_relax_tally m s p a nxt rem st :
  leads p s → length p = m →
  (a, nxt) ∈ successors s rows cols blocked →
  inv m s ((a, nxt) :: rem) st →
  ucs_tally st → ucs_tally (ucs_relax m p st (a, nxt)).
Proof.
  intros Hp Hlen Hsucc Hinv [Hgen Hnodup Hexp].
  assert (leads (p ++ [a]) nxt) as Hpa.
  { unfold plan_to. rewrite apply_plan_snoc, Hp. simpl.
    by apply apply_action_Some. }
  unfold ucs_relax. destruct (ucs_g_best st !! nxt) as [prev|] eqn:Hprev.
  - destruct (ucs_inv_dist _ _ _ _ _ _ _ _ _ Hinv nxt prev Hprev) as [_ Hle].
    specialize (Hle _ Hpa). rewrite length_app in Hle. simpl in Hle.
    rewrite (proj2 (Nat.ltb_ge _ _)) by lia. done.
  - split; simpl.
    + rewrite dom_insert_L, size_union, size_singleton; [lia|].
      apply disjoint_singleton_l. by apply not_elem_of_dom.
    + apply NoDup_cons. split; [|done]. intros Hin.
      apply list_elem_of_fmap in Hin. destruct Hin as (e & Hst & He).
      destruct (ucs_inv_frontier _ _ _ _ _ _ _ _ _ Hinv e He) as (_ & _ & Hbest).
      congruence.
    + lia.
Qed.

Lemma ucs_relax_fold_tally m s p rem st :
  leads p s → length p = m →
  (∀ x, x ∈ rem → x ∈ successors s rows cols blocked) →
  inv m s rem st →
  ucs_tally st → ucs_tally (fold_left (ucs_relax m p) rem st).
Proof.
  intros Hp Hlen. revert st.
  induction rem as [|[a nxt] rem IH]; intros st Hrem Hinv Htally; simpl; [done|].
  assert ((a, nxt) ∈ successors s rows cols blocked) as Hsucc
    by (apply Hrem; by left).
  destruct (ucs_relax_inv _ _ _ _ _ m s p a nxt rem st Hp Hlen Hsucc Hinv)
    as [Hinv' _].
  apply IH; [intros x Hx; apply Hrem; by right|done|].
  by eapply ucs_relax_tally.
Qed.

(** The state of the search when an entry has been popped and is about to
    be expanded. *)
Lemma ucs_pop_inv st e frontier :
  top st → heappop (ucs_frontier st) = Some (e, frontier) →
  is_goal (e_state e) = false →
  inv (e_cost e) (e_state e) (successors (e_state e) rows cols blocked)
    (UcsState frontier (ucs_g_best st) (ucs_counter st)
       (ucs_generated st) (S (ucs_expanded st))).
Proof.
  intros Hinv Hpop Hgoal.
  destruct (heappop_Some _ _ _ Hpop) as (Hmem & Hlen & Hleast).
  assert (e ∈ ucs_frontier st) as He by (apply Hmem; by left).
  destruct (ucs_inv_frontier _ _ _ _ _ _ _ _ _ Hinv e He) as (_ & _ & Hbest).
  destruct Hinv as [Hstart Hfront _ Hdist Hclosed Hcount].
  split; simpl; [done| | |done| |lia].
  - intros x Hx. apply Hfront, Hmem. by right.
  - intros x Hx. apply Hleast, Hmem. by right.
  - intros u gu Hu.
    destruct (Hclosed u gu Hu) as [(x & Hx & Hxu)|[Hng Hsuccs]].
    + apply Hmem in Hx. destruct Hx as [->|Hx]; [|left; by eauto].
      subst u. right. split; [done|].
      intros a u' Hau. right. split_and!; [done| |done]. congruence.
    + right. split; [done|]. intros a u' Hau.
      destruct (Hsuccs a u' Hau) as [?|(_ & _ & Hnil)]; [by left|].
      by apply elem_of_nil in Hnil.
Qed.

Lemma ucs_step_tally_ok :
  step_ok (ucs_step rows cols blocked)
    (λ st, top st ∧ ucs_tally st)
    (λ o, ucs_post rows cols blocked start dirty o
          ∧ ucs_tally_post rows cols start dirty o)
    (ucs_measure rows cols start dirty).
Proof.
  intros st [Hinv Htally].
  pose proof (ucs_step_ok rows cols blocked start dirty st Hinv) as Hok.
  pose proof (ucs_recorded_in_space _ _ _ _ Hinv) as Hsub.
  apply subseteq_size in Hsub.
  pose proof Htally as [Hgen Hnodup Hexp].
  unfold ucs_step in *.
  destruct (heappop (ucs_frontier st)) as [[e frontier]|] eqn:Hpop.
  - destruct (heappop_Some _ _ _ Hpop) as (Hmem & Hlen & Hleast).
    assert (e ∈ ucs_frontier st) as He by (apply Hmem; by left).
    destruct (ucs_inv_frontier _ _ _ _ _ _ _ _ _ Hinv e He) as (Hpath & Hplen & Hbest).
    pose proof (ucs_pop_inv st e frontier Hinv Hpop) as Hmid.
    destruct e as [g n state path]. simpl in *. rewrite Hbest in *.
    rewrite (proj2 (Nat.ltb_ge g g)) in * by lia.
    destruct (is_goal state) eqn:Hgoal.
    + split; [done|]. simpl. split; [lia|done].
    + destruct Hok as [Hinv' Hdec]. split; [|done]. split; [done|].
      apply (ucs_relax_fold_tally g state path); [done..|by apply Hmid|].
      split; simpl; [done| |lia].
      apply heappop_perm in Hpop. rewrite Hpop in Hnodup. simpl in Hnodup.
      by apply NoDup_cons in Hnodup as [_ ?].
  - apply heappop_None in Hpop. rewrite Hpop in Hexp. simpl in *.
    split; [done|]. split; [lia|]. intros _. lia.
Qed.

Lemma ucs_returns_tally :
  ∃ o, uniform_cost_search rows cols blocked start dirty = Some o
       ∧ ucs_post rows cols blocked start dirty o
       ∧ ucs_tally_post rows cols start dirty o.
Proof.
  unfold uniform_cost_search.
  apply (loop_total _ _ _ _ ucs_step_tally_ok).
  - split; [apply ucs_inv_init|apply ucs_tally_init].
  - apply ucs_measure_init.
Qed.
End UniformCostTally.

(** X6.  A plan returned by either search passes through no state twice,
    so it has fewer actions than there are states: at most
    [(rows * cols + 1) * 2 ^ |dirty|]. *)
Theorem returned_plan_has_no_loop
    (rows cols : Z) (blocked : gset Coord) (start : Coord) (dirty : gset Coord)
    (plan : list Action) (gen exp : nat) :
  depth_first_search rows cols blocked start dirty = Some (Some plan, gen, exp)
  ∨ uniform_cost_search rows cols blocked start dirty
    = Some (Returned (Some plan, gen, exp)) →
  NoDup (plan_states rows cols blocked (start, dirty) plan)
  ∧ (length plan < space_bound rows cols dirty)%nat.
Proof.
  intros Hret.
  assert ((∃ t, apply_plan rows cols blocked (start, dirty) plan = Some t)
          ∧ NoDup (plan_states rows cols blocked (start, dirty) plan))
    as [[t Ht] Hnodup].
  { destruct Hret as [Hdfs|Hucs].
    - destruct (dfs_returns_tally rows cols blocked start dirty)
        as (r & Hr & Hpost & Htally).
      rewrite Hdfs in Hr. simplify_eq. destruct Hpost as [(t & Ht & _) _].
      destruct Htally as (_ & _ & Hnodup). by eauto.
    - destruct (ucs_returns rows cols blocked start dirty) as (o & Ho & Hpost).
      rewrite Hucs in Ho. simplify_eq.
      destruct Hpost as ((t & Ht & Hclean) & Hshort & _). split; [by eauto|].
      destruct (decide (NoDup (plan_states rows cols blocked (start, dirty) plan)))
        as [?|Hdup]; [done|].
      destruct (plan_shortcut _ _ _ _ _ _ Ht Hdup) as (q & Hq & Hlt).
      specialize (Hshort q t Hq Hclean). lia. }
  split; [done|].
  pose proof (length_plan_states _ _ _ _ _ _ Ht) as Hlen.
  pose proof (NoDup_in_space _ (state_space rows cols start dirty) Hnodup) as Hle.
  pose proof (size_state_space rows cols start dirty).
  assert (length (plan_states rows cols blocked (start, dirty) plan)
          ≤ size (state_space rows cols start dirty))%nat; [|lia].
  apply Hle. intros x Hx. destruct (plan_states_reached _ _ _ _ _ _ Hx) as [q Hq].
  by eapply reachable_state_space.
Qed.

Lemma returned_plan_has_no_loop_witness :
  NoDup (plan_states 2 2 ∅ ((0, 0), {[ (0, 1) ]}) [South; East; North; Vac])
  ∧ (length [South; East; North; Vac] < space_bound 2 2 {[ (0, 1)%Z ]})%nat.
Proof.
  apply (returned_plan_has_no_loop 2 2 ∅ (0, 0) {[ (0, 1) ]} _ 10 5).
  left. vm_compute. reflexivity.
Defined.

(** X7.  Depth-first search expands each state at most once: its count of
    expanded nodes is the size of the visited set, at most
    [(rows * cols + 1) * 2 ^ |dirty|] at the end; and it generates at most
    five nodes per expanded node besides the start node. *)
Theorem dfs_counts_each_state_once
    (rows cols : Z) (blocked : gset Coord) (start : Coord) (dirty : gset Coord) :
  (∀ n st,
     iterate (dfs_step rows cols blocked) n (dfs_init start dirty) = Some st →
     dfs_expanded st = size (dfs_visited st)
     ∧ (dfs_generated st ≤ 1 + 5 * dfs_expanded st)%nat)
  ∧ ∃ plan gen exp,
      depth_first_search rows cols blocked start dirty = Some (plan, gen, exp)
      ∧ (gen ≤ 1 + 5 * exp)%nat
      ∧ (exp ≤ space_bound rows cols dirty)%nat.
Proof.
  split.
  - intros n st Hit.
    destruct (iterate_inv _ _ _ _
                (dfs_step_tally_ok rows cols blocked start dirty) n _ _
                (conj (dfs_inv_init rows cols blocked start dirty)
                      (dfs_tally_init rows cols blocked start dirty)) Hit)
      as [_ [Hexp Hgen _]]. done.
  - destruct (dfs_returns_tally rows cols blocked start dirty)
      as ([[plan gen] exp] & Hr & _ & Hgen & Hexp & _).
    exists plan, gen, exp. simpl in *.
    pose proof (size_state_space rows cols start dirty). split_and!; [done|lia..].
Qed.

(** X8.  In uniform-cost search the test [g > g_best[state]] never
    succeeds: every frontier entry carries the cost recorded for its
    state, no state is on the frontier twice, and every popped entry is
    expanded; so expanded + |frontier| = generated throughout, and
    generated is the number of recorded states. *)
Theorem ucs_never_meets_a_stale_entry
    (rows cols : Z) (blocked : gset Coord) (start : Coord) (dirty : gset Coord)
    (n : nat) (st : ucs_state) :
  iterate (ucs_step rows cols blocked) n (ucs_init start dirty) = Some st →
  (∀ e, e ∈ ucs_frontier st → ucs_g_best st !! e_state e = Some (e_cost e))
  ∧ (∀ e rest, heappop (ucs_frontier st) = Some (e, rest) →
       ucs_expands st = Some (e_state e))
  ∧ NoDup (e_state <$> ucs_frontier st)
  ∧ (ucs_expanded st + length (ucs_frontier st))%nat = ucs_generated st
  ∧ ucs_generated st = size (dom (ucs_g_best st)).
Proof.
  intros Hit.
  destruct (iterate_inv _ _ _ _
              (ucs_step_tally_ok rows cols blocked start dirty) n _ _
              (conj (ucs_inv_init rows cols blocked start dirty)
                    (ucs_tally_init start dirty)) Hit)
    as [Hinv [Hgen Hnodup Hexp]].
  assert (∀ e, e ∈ ucs_frontier st →
            ucs_g_best st !! e_state e = Some (e_cost e)) as Hbest.
  { intros e He. by destruct (ucs_inv_frontier _ _ _ _ _ _ _ _ _ Hinv e He)
      as (_ & _ & ?). }
  split_and!; [done| |done..].
  intros e rest Hpop. unfold ucs_expands. rewrite Hpop.
  destruct (heappop_Some _ _ _ Hpop) as (Hmem & _).
  rewrite Hbest by (apply Hmem; by left).
  by rewrite (proj2 (Nat.ltb_ge _ _)) by lia.
Qed.

Lemma ucs_never_meets_a_stale_entry_witness :
  (∀ e, e ∈ ucs_frontier (ucs_init (0, 1)%Z ordering_dirt) →
     ucs_g_best (ucs_init (0, 1)%Z ordering_dirt) !! e_state e = Some (e_cost e))
  ∧ (∀ e rest,
       heappop (ucs_frontier (ucs_init (0, 1)%Z ordering_dirt)) = Some (e, rest) →
       ucs_expands (ucs_init (0, 1)%Z ordering_dirt) = Some (e_state e))
  ∧ NoDup (e_state <$> ucs_frontier (ucs_init (0, 1)%Z ordering_dirt))
  ∧ (ucs_expanded (ucs_init (0, 1)%Z ordering_dirt)
     + length (ucs_frontier (ucs_init (0, 1)%Z ordering_dirt)))%nat
    = ucs_generated (ucs_init (0, 1)%Z ordering_dirt)
  ∧ ucs_generated (ucs_init (0, 1)%Z ordering_dirt)
    = size (dom (ucs_g_best (ucs_init (0, 1)%Z ordering_dirt))).
Proof.
  apply (ucs_never_meets_a_stale_entry 1 3 ∅ (0, 1) ordering_dirt 0).
  reflexivity.
Defined.

(** X9.  Uniform-cost search generates each state at most once, so its
    count of generated nodes is at most [(rows * cols + 1) * 2 ^ |dirty|];
    and when it finds no plan it has expanded every node it generated. *)
Theorem ucs_generates_each_state_once
    (rows cols : Z) (blocked : gset Coord) (start : Coord) (dirty : gset Coord) :
  ∃ plan gen exp,
    uniform_cost_search rows cols blocked start dirty
    = Some (Returned (plan, gen, exp))
    ∧ (gen ≤ space_bound rows cols dirty)%nat
    ∧ (plan = None → exp = gen).
Proof.
  destruct (ucs_returns_tally rows cols blocked start dirty)
    as (o & Ho & Hpost & Htally).
  destruct o as [[[plan gen] exp]|]; [|done].
  exists plan, gen, exp. destruct Htally as [Hgen Hall].
  pose proof (size_state_space rows cols start dirty). split_and!; [done|lia|done].
Qed.

(** ** Reading a world *)

(** What one cell does to the three variables of the loop. *)
Lemma scan_cell_inr r c ch acc acc' :
  scan_cell r c ch acc = inr acc' →
  allowed_cell ch
  ∧ scan_start acc' =
      (if decide (ch = ord "@") then Some (Z.of_nat r, Z.of_nat c)
       else scan_start acc)
  ∧ scan_dirty acc' =
      (if decide (ch = ord "*") then {[ (Z.of_nat r, Z.of_nat c) ]} ∪ scan_dirty acc
       else scan_dirty acc)
  ∧ scan_blocked acc' =
      (if decide (ch = ord "#") then {[ (Z.of_nat r, Z.of_nat c) ]} ∪ scan_blocked acc
       else scan_blocked acc).
Proof.
  unfold scan_cell, allowed_cell. intros Hcell.
  destruct (decide (ch = ord "@")) as [->|?].
  { simplify_eq. simpl. split_and!; [set_solver|done..]. }
  destruct (decide (ch = ord "*")) as [->|?].
  { simplify_eq. simpl. split_and!; [set_solver|done..]. }
  destruct (decide (ch = ord "#")) as [->|?].
  { simplify_eq. simpl. split_and!; [set_solver|done..]. }
  destruct (decide (ch = ord "_" ∨ ch = ord ".")) as [[->| ->]|?];
    simplify_eq; split_and!; try done; set_solver.
Qed.

Lemma scan_cell_allowed r c ch acc :
  allowed_cell ch → ∃ acc', scan_cell r c ch acc = inr acc'.
Proof.
  unfold allowed_cell, scan_cell. intros Hch.
  repeat (apply elem_of_cons in Hch; destruct Hch as [->|Hch]);
    [..|by apply elem_of_nil in Hch]; by eexists.
Qed.

(** What the scan of one row, from column [c0] on, does. *)
Lemma scan_row_spec r row c0 acc acc' :
  scan_row r c0 row acc = inr acc' →
  (∀ i ch, row !! i = Some ch → allowed_cell ch)
  ∧ (∀ p, p ∈ scan_dirty acc' ↔
       p ∈ scan_dirty acc
       ∨ ∃ i, row !! i = Some (ord "*")
              ∧ p = (Z.of_nat r, Z.of_nat (c0 + i)))
  ∧ (∀ p, p ∈ scan_blocked acc' ↔
       p ∈ scan_blocked acc
       ∨ ∃ i, row !! i = Some (ord "#")
              ∧ p = (Z.of_nat r, Z.of_nat (c0 + i)))
  ∧ ((scan_start acc' = scan_start acc
      ∧ ∀ i, row !! i ≠ Some (ord "@"))
     ∨ ∃ i, scan_start acc' = Some (Z.of_nat r, Z.of_nat (c0 + i))
            ∧ row !! i = Some (ord "@")
            ∧ ∀ j, row !! j = Some (ord "@") → (j ≤ i)%nat).
Proof.
  revert c0 acc. induction row as [|ch row IH]; intros c0 acc Hscan; simpl in Hscan.
  - simplify_eq. split_and!; [done|naive_solver..|left; by split].
  - destruct (scan_cell r c0 ch acc) as [e|acc1] eqn:Hcell; [done|].
    apply scan_cell_inr in Hcell.
    destruct Hcell as (Hallowed & Hstart1 & Hdirty1 & Hblocked1).
    destruct (IH (S c0) acc1 Hscan) as (Hall & Hdirty & Hblocked & Hstart).
    split_and!.
    + intros [|i] c Hget; simpl in Hget; [by simplify_eq|by eapply Hall].
    + intros p. rewrite Hdirty, Hdirty1. split.
      * intros [Hp|(i & Hget & ->)].
        -- destruct (decide (ch = ord "*")) as [->|?]; [|by left].
           apply elem_of_union in Hp. destruct Hp as [Hp|?]; [|by left].
           apply elem_of_singleton in Hp. subst p. right. exists 0%nat.
           split; [done|]. by rewrite Nat.add_0_r.
        -- right. exists (S i). split; [done|]. f_equal. lia.
      * intros [Hp|([|i] & Hget & ->)].
        -- left. destruct (decide (ch = ord "*")); set_solver.
        -- simpl in Hget. simplify_eq. left. rewrite decide_True by done.
           rewrite Nat.add_0_r. set_solver.
        -- right. exists i. split; [done|]. f_equal. lia.
    + intros p. rewrite Hblocked, Hblocked1. split.
      * intros [Hp|(i & Hget & ->)].
        -- destruct (decide (ch = ord "#")) as [->|?]; [|by left].
           apply elem_of_union in Hp. destruct Hp as [Hp|?]; [|by left].
           apply elem_of_singleton in Hp. subst p. right. exists 0%nat.
           split; [done|]. by rewrite Nat.add_0_r.
        -- right. exists (S i). split; [done|]. f_equal. lia.
      * intros [Hp|([|i] & Hget & ->)].
        -- left. destruct (decide (ch = ord "#")); set_solver.
        -- simpl in Hget. simplify_eq. left. rewrite decide_True by done.
           rewrite Nat.add_0_r. set_solver.
        -- right. exists i. split; [done|]. f_equal. lia.
    + destruct Hstart as [[Hsame Hnone]|(i & Hat & Hget & Hlast)].
      * rewrite Hsame, Hstart1.
        destruct (decide (ch = ord "@")) as [->|Hne].
        -- right. exists 0%nat. rewrite Nat.add_0_r. split_and!; [done..|].
           intros [|j] Hj; [lia|]. simpl in Hj. by apply Hnone in Hj.
        -- left. split; [done|]. intros [|j] Hj; simpl in Hj;
             [by simplify_eq|by apply Hnone in Hj].
      * right. exists (S i). split_and!; [|done|].
        -- rewrite Hat. do 2 f_equal. lia.
        -- intros [|j] Hj; [lia|]. simpl in Hj. apply Hlast in Hj. lia.
Qed.

Lemma scan_row_allowed r row c0 acc :
  (∀ i ch, row !! i = Some ch → allowed_cell ch) →
  ∃ acc', scan_row r c0 row acc = inr acc'.
Proof.
  revert c0 acc. induction row as [|ch row IH]; intros c0 acc Hall; simpl.
  - by eexists.
  - destruct (scan_cell_allowed r c0 ch acc) as [acc1 ->]; [by apply (Hall 0%nat)|].
    apply IH. intros i c Hget. by apply (Hall (S i)).
Qed.

(** What the scan of the rows [r0], ..., [r0 + n - 1] does. *)
Lemma scan_rows_spec cols grid n r0 acc acc' :
  scan_rows cols grid (seq r0 n) acc = inr acc' →
  (∀ r, (r0 ≤ r < r0 + n)%nat →
     ∃ row, grid !! r = Some row
            ∧ Z.of_nat (length row) = cols
            ∧ ∀ i ch, row !! i = Some ch → allowed_cell ch)
  ∧ (∀ p, p ∈ scan_dirty acc' ↔
       p ∈ scan_dirty acc
       ∨ ∃ r i, (r0 ≤ r < r0 + n)%nat
                ∧ grid !! r ≫= (.!! i) = Some (ord "*")
                ∧ p = (Z.of_nat r, Z.of_nat i))
  ∧ (∀ p, p ∈ scan_blocked acc' ↔
       p ∈ scan_blocked acc
       ∨ ∃ r i, (r0 ≤ r < r0 + n)%nat
                ∧ grid !! r ≫= (.!! i) = Some (ord "#")
                ∧ p = (Z.of_nat r, Z.of_nat i))
  ∧ ((scan_start acc' = scan_start acc
      ∧ ∀ r i, (r0 ≤ r < r0 + n)%nat →
               grid !! r ≫= (.!! i) ≠ Some (ord "@"))
     ∨ ∃ r i, (r0 ≤ r < r0 + n)%nat
              ∧ scan_start acc' = Some (Z.of_nat r, Z.of_nat i)
              ∧ grid !! r ≫= (.!! i) = Some (ord "@")
              ∧ ∀ r' i', (r0 ≤ r' < r0 + n)%nat →
                  grid !! r' ≫= (.!! i') = Some (ord "@") →
                  (r' < r ∨ (r' = r ∧ i' ≤ i))%nat).
Proof.
  revert r0 acc. induction n as [|n IH]; intros r0 acc Hscan; simpl in Hscan.
  - simplify_eq. split_and!.
    + intros r ?. lia.
    + intros p. split; [by left|]. intros [?|(r & i & ? & _)]; [done|lia].
    + intros p. split; [by left|]. intros [?|(r & i & ? & _)]; [done|lia].
    + left. split; [done|]. intros r i ?. lia.
  - destruct (grid !! r0) as [row|] eqn:Hrow; [|done].
    destruct (decide (Z.of_nat (length row) ≠ cols)) as [?|Hlen]; [done|].
    apply dec_stable in Hlen.
    destruct (scan_row r0 0 row acc) as [e|acc1] eqn:Hscan1; [done|].
    apply scan_row_spec in Hscan1.
    destruct Hscan1 as (Hall1 & Hdirty1 & Hblocked1 & Hstart1).
    destruct (IH (S r0) acc1 Hscan) as (Hall & Hdirty & Hblocked & Hstart).
    assert (∀ r, (r0 ≤ r < r0 + S n)%nat → r = r0 ∨ (S r0 ≤ r < S r0 + n)%nat)
      as Hsplit by (intros; lia).
    split_and!.
    + intros r Hr. destruct (Hsplit r Hr) as [->|Hr']; [by eauto|by apply Hall].
    + intros p. rewrite Hdirty, Hdirty1. split.
      * intros [[?|(i & Hget & ->)]|(r & i & Hr & Hget & ->)]; [by left|right..].
        -- exists r0, i. rewrite Hrow. split_and!; try done; lia.
        -- exists r, i. split_and!; try done; lia.
      * intros [?|(r & i & Hr & Hget & ->)]; [by auto|].
        destruct (Hsplit r Hr) as [->|Hr'].
        -- rewrite Hrow in Hget. left. right. by exists i.
        -- right. by exists r, i.
    + intros p. rewrite Hblocked, Hblocked1. split.
      * intros [[?|(i & Hget & ->)]|(r & i & Hr & Hget & ->)]; [by left|right..].
        -- exists r0, i. rewrite Hrow. split_and!; try done; lia.
        -- exists r, i. split_and!; try done; lia.
      * intros [?|(r & i & Hr & Hget & ->)]; [by auto|].
        destruct (Hsplit r Hr) as [->|Hr'].
        -- rewrite Hrow in Hget. left. right. by exists i.
        -- right. by exists r, i.
    + destruct Hstart as [[Hsame Hnone]|(r & i & Hr & Hat & Hget & Hlast)].
      * rewrite Hsame.
        destruct Hstart1 as [[Hsame1 Hnone1]|(i & Hat & Hget & Hlast)].
        -- left. split; [done|]. intros r i Hr.
           destruct (Hsplit r Hr) as [->|Hr']; [|by apply Hnone].
           rewrite Hrow. apply Hnone1.
        -- right. exists r0, i. rewrite Hrow. split_and!; [lia|lia|done..|].
           intros r' i' Hr' Hget'. destruct (Hsplit r' Hr') as [->|Hr''].
           ++ rewrite Hrow in Hget'. right. split; [done|]. by apply Hlast.
           ++ by apply Hnone in Hget'.
      * right. exists r, i. split_and!; [lia|lia|done..|].
        intros r' i' Hr' Hget'. destruct (Hsplit r' Hr') as [->|Hr''].
        -- left. lia.
        -- by apply Hlast.
Qed.

Lemma scan_rows_allowed cols grid n r0 acc :
  (∀ r, (r0 ≤ r < r0 + n)%nat →
     ∃ row, grid !! r = Some row
            ∧ Z.of_nat (length row) = cols
            ∧ ∀ i ch, row !! i = Some ch → allowed_cell ch) →
  ∃ acc', scan_rows cols grid (seq r0 n) acc = inr acc'.
Proof.
  revert r0 acc. induction n as [|n IH]; intros r0 acc Hrows; simpl.
  - by eexists.
  - destruct (Hrows r0) as (row & -> & Hlen & Hall); [lia|].
    rewrite decide_False by (by intros ?).
    destruct (scan_row_allowed r0 row 0 acc Hall) as [acc1 ->].
    apply IH. intros r Hr. apply Hrows. lia.
Qed.

Lemma cell_at_Some grid p ch :
  cell_at grid p = Some ch ↔
  ∃ r i, p = (Z.of_nat r, Z.of_nat i) ∧ grid !! r ≫= (.!! i) = Some ch.
Proof.
  unfold cell_at. destruct p as [x y]. simpl. split.
  - destruct (decide (0 ≤ x ∧ 0 ≤ y)) as [[? ?]|?]; [|done]. intros Hget.
    exists (Z.to_nat x), (Z.to_nat y). split; [|done]. f_equal; lia.
  - intros (r & i & ? & Hget). simplify_eq.
    rewrite decide_True by lia. by rewrite !Nat2Z.id.
Qed.

Lemma cell_at_in_bounds rows cols grid p ch :
  (length grid ≤ Z.to_nat rows)%nat →
  (∀ r row, grid !! r = Some row → Z.of_nat (length row) = cols) →
  cell_at grid p = Some ch → in_bounds rows cols p.
Proof.
  intros Hlen Hrows Hcell. apply cell_at_Some in Hcell.
  destruct Hcell as (r & i & -> & Hget).
  destruct (grid !! r) as [row|] eqn:Hrow; [|done]. simpl in Hget.
  apply lookup_lt_Some in Hrow as Hr. apply Hrows in Hrow.
  apply lookup_lt_Some in Hget. unfold in_bounds. simpl. lia.
Qed.

Lemma cell_le_antisym p q : cell_le p q → cell_le q p → p = q.
Proof.
  unfold cell_le. destruct p, q. simpl. intros ? ?. f_equal; lia.
Qed.

Lemma int_digits_nonneg pf digits acc :
  0 ≤ acc → 0 ≤ int_digits pf acc digits.
Proof.
  revert acc. induction digits as [|ch digits IH]; intros acc Hacc; simpl; [done|].
  apply IH. lia.
Qed.

(** The header numbers are never negative: a sign is not a digit. *)
Lemma int_header_nonneg pf line n :
  int pf (remove_non_digits pf line) = inr n → 0 ≤ n.
Proof.
  unfold int. repeat case_decide; intros; simplify_eq.
  by apply int_digits_nonneg.
Qed.

Lemma parse_lines_reads pf lines w :
  parse_lines pf lines = inr w → reads_as pf lines w.
Proof.
  unfold parse_lines. destruct lines as [|line0 [|line1 rest]]; [done..|].
  destruct (int pf (remove_non_digits pf line0)) as [?|cols] eqn:Hcols;
    [done|].
  destruct (int pf (remove_non_digits pf line1)) as [?|rows] eqn:Hrows;
    [done|].
  simpl. set (n := Z.to_nat rows). set (grid := take n rest).
  destruct (decide (Z.of_nat (length grid) ≠ rows)) as [?|Hlen]; [done|].
  apply dec_stable in Hlen.
  destruct (scan_rows cols grid (seq 0 n) (Scan None ∅ ∅)) as [?|acc] eqn:Hscan;
    [done|].
  destruct (scan_start acc) as [start|] eqn:Hstart; [|done].
  intros ?. simplify_eq.
  assert (length grid = n) as Hgrid by (unfold n; lia).
  assert (n ≤ length rest)%nat as Hrest.
  { unfold grid in Hgrid. rewrite length_take in Hgrid. lia. }
  apply scan_rows_spec in Hscan.
  destruct Hscan as (Hall & Hdirty & Hblocked & Hlast).
  assert (∀ r i ch, grid !! r ≫= (.!! i) = Some ch → (0 ≤ r < 0 + n)%nat)
    as Hin.
  { intros r i ch Hget. destruct (grid !! r) eqn:Hr; [|done].
    apply lookup_lt_Some in Hr. lia. }
  exists line0, line1, rest. unfold grid_of. simpl. fold n. fold grid.
  split_and!; [done..| | | | |].
  - intros r row Hr Hrow. destruct (Hall r) as (row' & Hrow' & ? & ?); [lia|].
    unfold grid in Hrow'. rewrite lookup_take_lt in Hrow' by done. by simplify_eq.
  - intros p. rewrite Hdirty, cell_at_Some. simpl. split.
    + intros [?|(r & i & _ & ? & ?)]; [set_solver|by eauto].
    + intros (r & i & ? & Hget). right. exists r, i. by eauto.
  - intros p. rewrite Hblocked, cell_at_Some. simpl. split.
    + intros [?|(r & i & _ & ? & ?)]; [set_solver|by eauto].
    + intros (r & i & ? & Hget). right. exists r, i. by eauto.
  - destruct Hlast as [[Hnone _]|(r & i & _ & Hat & Hget & _)].
    + simpl in Hnone. congruence.
    + rewrite Hstart in Hat. simplify_eq. apply cell_at_Some. by eauto.
  - intros p Hp. apply cell_at_Some in Hp. destruct Hp as (r' & i' & -> & Hget').
    destruct Hlast as [[Hnone _]|(r & i & _ & Hat & Hget & Hmax)].
    + simpl in Hnone. congruence.
    + rewrite Hstart in Hat. simplify_eq.
      specialize (Hmax r' i' (Hin _ _ _ Hget') Hget').
      unfold cell_le. simpl. lia.
Qed.

Lemma reads_parse_lines pf lines w :
  reads_as pf lines w → parse_lines pf lines = inr w.
Proof.
  destruct w as [[[[rows cols] blocked] start] dirty].
  intros (line0 & line1 & rest & -> & Hcols & Hrows & Hrest & Hall
          & Hdirty & Hblocked & Hstart & Hlast).
  unfold parse_lines, grid_of in *. simpl in *. rewrite Hcols, Hrows.
  pose proof (int_header_nonneg _ _ _ Hrows) as Hnonneg.
  set (n := Z.to_nat rows) in *. set (grid := take n rest) in *.
  assert (length grid = n) as Hgrid by (unfold grid; rewrite length_take; lia).
  rewrite decide_False by (unfold n in *; lia).
  destruct (scan_rows_allowed cols grid n 0 (Scan None ∅ ∅)) as [acc Hscan].
  { intros r Hr. destruct (lookup_lt_is_Some_2 grid r) as [row Hrow]; [lia|].
    exists row. split; [done|]. apply (Hall r); [lia|].
    unfold grid in Hrow. by rewrite lookup_take_lt in Hrow by lia. }
  rewrite Hscan. apply scan_rows_spec in Hscan.
  destruct Hscan as (_ & Hdirty' & Hblocked' & Hlast').
  assert (∀ r i ch, grid !! r ≫= (.!! i) = Some ch → (0 ≤ r < 0 + n)%nat)
    as Hin.
  { intros r i ch Hget. destruct (grid !! r) eqn:Hr; [|done].
    apply lookup_lt_Some in Hr. lia. }
  apply cell_at_Some in Hstart as (r0 & i0 & -> & Hget0).
  destruct Hlast' as [[_ Hnone]|(r & i & _ & Hat & Hget & Hmax)].
  { exfalso. by apply (Hnone r0 i0 (Hin _ _ _ Hget0)). }
  rewrite Hat.
  assert ((Z.of_nat r, Z.of_nat i) = (Z.of_nat r0, Z.of_nat i0)) as ->.
  { apply cell_le_antisym.
    - apply Hlast, cell_at_Some. by eauto.
    - specialize (Hmax r0 i0 (Hin _ _ _ Hget0) Hget0). unfold cell_le. simpl. lia. }
  repeat f_equal.
  - apply set_eq. intros p. rewrite Hblocked', Hblocked, cell_at_Some. simpl. split.
    + intros [?|(r' & i' & _ & ? & ?)]; [set_solver|by eauto].
    + intros (r' & i' & ? & Hget'). right. exists r', i'. by eauto.
  - apply set_eq. intros p. rewrite Hdirty', Hdirty, cell_at_Some. simpl. split.
    + intros [?|(r' & i' & _ & ? & ?)]; [set_solver|by eauto].
    + intros (r' & i' & ? & Hget'). right. exists r', i'. by eauto.
Qed.

(** How the scans fail. *)
Lemma scan_cell_inl r c ch acc e :
  scan_cell r c ch acc = inl e → e = UnknownCell ch r c ∧ ¬ allowed_cell ch.
Proof.
  unfold scan_cell, allowed_cell. repeat case_decide; intros; simplify_eq.
  split; [done|]. set_solver.
Qed.

Lemma scan_row_inl r row c0 acc e :
  scan_row r c0 row acc = inl e →
  ∃ i ch, e = UnknownCell ch r (c0 + i)
          ∧ row !! i = Some ch ∧ ¬ allowed_cell ch.
Proof.
  revert c0 acc. induction row as [|ch row IH]; intros c0 acc Hscan; [done|].
  simpl in Hscan. destruct (scan_cell r c0 ch acc) as [e'|acc1] eqn:Hcell.
  - simplify_eq. apply scan_cell_inl in Hcell as [-> ?].
    exists 0%nat, ch. by rewrite Nat.add_0_r.
  - destruct (IH _ _ Hscan) as (i & ch' & -> & ? & ?).
    exists (S i), ch'. split_and!; [f_equal; lia|done..].
Qed.

Lemma scan_rows_inl cols grid n r0 acc e :
  scan_rows cols grid (seq r0 n) acc = inl e →
  ∃ r, (r0 ≤ r < r0 + n)%nat
       ∧ match grid !! r with
         | None => e = IndexError
         | Some row =>
             (e = RowLength r (length row) cols
              ∧ Z.of_nat (length row) ≠ cols)
             ∨ ∃ i ch, e = UnknownCell ch r i
                       ∧ row !! i = Some ch ∧ ¬ allowed_cell ch
         end.
Proof.
  revert r0 acc. induction n as [|n IH]; intros r0 acc Hscan; [done|].
  simpl in Hscan. destruct (grid !! r0) as [row|] eqn:Hrow.
  - destruct (decide (Z.of_nat (length row) ≠ cols)) as [?|_].
    { simplify_eq. exists r0. rewrite Hrow. split; [lia|by left]. }
    destruct (scan_row r0 0 row acc) as [e'|acc1] eqn:Hscan1.
    + simplify_eq. apply scan_row_inl in Hscan1 as (i & ch & -> & ? & ?).
      exists r0. rewrite Hrow. split; [lia|]. right. by exists i, ch.
    + destruct (IH _ _ Hscan) as (r & Hr & Hcase). exists r. split; [lia|done].
  - simplify_eq. exists r0. rewrite Hrow. split; [lia|done].
Qed.

Lemma int_inl pf digits e :
  int pf digits = inl e → e = InvalidLiteral.
Proof. unfold int. repeat case_decide; intros; by simplify_eq. Qed.

(** When the file is read, and what text it gives. *)
Lemma read_world_file_inr pf path raw :
  read_world_file pf path = inr raw ↔
  read_text pf Utf8Sig path = ReadOk raw
  ∨ (read_text pf Utf8Sig path = ReadUnicodeError
     ∧ read_text pf Utf16 path = ReadOk raw).
Proof.
  unfold read_world_file.
  destruct (read_text pf Utf8Sig path); [naive_solver| |naive_solver].
  destruct (read_text pf Utf16 path); naive_solver.
Qed.

Lemma read_world_file_inl pf path e :
  read_world_file pf path = inl e →
  (e = OSError
   ∧ (read_text pf Utf8Sig path = ReadOSError
      ∨ (read_text pf Utf8Sig path = ReadUnicodeError
         ∧ read_text pf Utf16 path = ReadOSError)))
  ∨ (e = UnicodeError
     ∧ read_text pf Utf8Sig path = ReadUnicodeError
     ∧ read_text pf Utf16 path = ReadUnicodeError).
Proof.
  unfold read_world_file.
  destruct (read_text pf Utf8Sig path); [naive_solver| |naive_solver].
  destruct (read_text pf Utf16 path); naive_solver.
Qed.

Lemma parse_world_inr pf path w :
  parse_world pf path = inr w ↔
  ∃ raw, read_world_file pf path = inr raw
         ∧ parse_lines pf (world_lines raw) = inr w.
Proof.
  unfold parse_world. destruct (read_world_file pf path) as [e|raw]; naive_solver.
Qed.

(** X10.  [parse_world] returns a world exactly when the file can be read,
    as UTF-8 or, after a [UnicodeError], as UTF-16, and the lines of its
    text read as that world: two header lines, the decimal digits of the
    first giving the columns and those of the second the rows, then at
    least [rows] lines of exactly [cols] characters among [@*#_.], one of
    them an at sign; the dirt is where the stars are, the blocked cells
    where the hashes are, and the start is the last at sign in reading
    order.  In every other case it raises. *)
Theorem parse_world_accepts (pf : platform) (path : str) (w : World) :
  parse_world pf path = inr w ↔
  ∃ raw,
    (read_text pf Utf8Sig path = ReadOk raw
     ∨ (read_text pf Utf8Sig path = ReadUnicodeError
        ∧ read_text pf Utf16 path = ReadOk raw))
    ∧ reads_as pf (world_lines raw) w.
Proof.
  rewrite parse_world_inr. split.
  - intros (raw & Hread & Hparse). exists raw.
    split; [by apply read_world_file_inr|by apply parse_lines_reads].
  - intros (raw & Hread & Hreads). exists raw.
    split; [by apply read_world_file_inr|by apply reads_parse_lines].
Qed.

(** A world read from a list of lines is a valid one. *)
Lemma parse_lines_valid
    (pf : platform) (lines : list str)
    (rows cols : Z) (blocked : gset Coord) (start : Coord) (dirty : gset Coord) :
  parse_lines pf lines = inr (rows, cols, blocked, start, dirty) →
  0 < rows ∧ 0 < cols
  ∧ in_bounds rows cols start
  ∧ start ∉ blocked ∧ start ∉ dirty
  ∧ blocked ## dirty
  ∧ ∀ p, p ∈ blocked ∪ dirty → in_bounds rows cols p.
Proof.
  intros Hparse. apply parse_lines_reads in Hparse.
  destruct Hparse as (line0 & line1 & rest & Hlines & Hcols & Hrows & Hrest & Hall
                      & Hdirty & Hblocked & Hstart & Hlast).
  rewrite Hlines in *. unfold grid_of in *. simpl in *.
  set (grid := take (Z.to_nat rows) rest) in *.
  assert (∀ p ch, cell_at grid p = Some ch → in_bounds rows cols p) as Hin.
  { intros p ch. apply cell_at_in_bounds.
    - unfold grid. rewrite length_take. lia.
    - intros r row Hrow. apply lookup_lt_Some in Hrow as Hr.
      unfold grid in Hrow, Hr. rewrite length_take in Hr.
      rewrite lookup_take_lt in Hrow by lia. apply (Hall r row); [lia|done]. }
  pose proof (Hin _ _ Hstart) as Hstart_in.
  assert (0 < rows ∧ 0 < cols) as [? ?]
    by (unfold in_bounds in Hstart_in; lia).
  split_and!; [done..| | | |].
  - rewrite Hblocked, Hstart. by intros ?.
  - rewrite Hdirty, Hstart. by intros ?.
  - intros p Hb Hd. apply Hblocked in Hb. apply Hdirty in Hd.
    rewrite Hb in Hd. done.
  - intros p Hp. apply elem_of_union in Hp. destruct Hp as [Hp|Hp].
    + apply Hblocked in Hp. by eapply Hin.
    + apply Hdirty in Hp. by eapply Hin.
Qed.

(** X11.  A world that [parse_world] returns is a valid one: the grid has
    at least one row and one column, the start cell is on the grid and is
    neither blocked nor dirty, no cell is both blocked and dirty, and every
    blocked or dirty cell is on the grid. *)
Theorem parse_world_returns_valid_world
    (pf : platform) (path : str)
    (rows cols : Z) (blocked : gset Coord) (start : Coord) (dirty : gset Coord) :
  parse_world pf path = inr (rows, cols, blocked, start, dirty) →
  0 < rows ∧ 0 < cols
  ∧ in_bounds rows cols start
  ∧ start ∉ blocked ∧ start ∉ dirty
  ∧ blocked ## dirty
  ∧ ∀ p, p ∈ blocked ∪ dirty → in_bounds rows cols p.
Proof.
  intros Hparse. apply parse_world_inr in Hparse as (raw & _ & Hparse).
  by eapply parse_lines_valid.
Qed.

Lemma parse_world_returns_valid_world_witness :
  0 < 1 ∧ 0 < 3
  ∧ in_bounds 1 3 (0, 1)
  ∧ (0, 1) ∉ (∅ : gset Coord) ∧ (0, 1) ∉ ordering_dirt
  ∧ (∅ : gset Coord) ## ordering_dirt
  ∧ ∀ p, p ∈ (∅ : gset Coord) ∪ ordering_dirt → in_bounds 1 3 p.
Proof.
  apply (parse_world_returns_valid_world example_platform (lit "utf16.txt")).
  vm_compute. reflexivity.
Defined.

(** X12.  Lines after the grid are not looked at: a list of lines that
    reads as a world still reads as the same world with any lines added
    at its end. *)
Theorem parse_lines_ignores_trailing_lines
    (pf : platform) (lines extra : list str) (w : World) :
  parse_lines pf lines = inr w →
  parse_lines pf (lines ++ extra) = inr w.
Proof.
  intros Hparse. apply parse_lines_reads in Hparse. apply reads_parse_lines.
  destruct w as [[[[rows cols] blocked] start] dirty].
  destruct Hparse as (line0 & line1 & rest & -> & Hcols & Hrows & Hrest & Hall
                      & Hcells).
  exists line0, line1, (rest ++ extra). unfold grid_of in *. simpl in *.
  rewrite !drop_0 in Hcells |- *. rewrite take_app_le by done.
  destruct Hcells as (? & ? & ? & ?). split_and!; try done.
  - rewrite length_app. lia.
  - intros r row Hr Hrow. rewrite lookup_app_l in Hrow by lia. by apply (Hall r).
Qed.

Lemma parse_lines_ignores_trailing_lines_witness :
  parse_lines example_platform
    ([lit "3"; lit "1"; lit "*@*"] ++ [lit "#"; lit "no grid row"])
  = inr (1, 3, ∅, (0, 1), ordering_dirt).
Proof.
  apply (parse_lines_ignores_trailing_lines example_platform
           [lit "3"; lit "1"; lit "*@*"]).
  vm_compute. reflexivity.
Defined.

(** The errors of the part of [parse_world] that follows the reading. *)
Lemma parse_lines_errors pf lines :
  (parse_lines pf lines = inl TooShort ↔ (length lines < 2)%nat)
  ∧ (∀ ch r c,
       parse_lines pf lines = inl (UnknownCell ch r c) →
       (drop 2 lines !! r) ≫= (.!! c) = Some ch ∧ ¬ allowed_cell ch)
  ∧ (∀ r len cols,
       parse_lines pf lines = inl (RowLength r len cols) →
       ∃ line0 row,
         lines !! 0%nat = Some line0
         ∧ int pf (remove_non_digits pf line0) = inr cols
         ∧ drop 2 lines !! r = Some row
         ∧ length row = len ∧ Z.of_nat len ≠ cols)
  ∧ parse_lines pf lines ≠ inl IndexError
  ∧ parse_lines pf lines ≠ inl UnicodeError
  ∧ parse_lines pf lines ≠ inl OSError.
Proof.
  unfold parse_lines. destruct lines as [|line0 [|line1 rest]].
  { simpl. split_and!; try done; try (split; [lia|done]). }
  { simpl. split_and!; try done; try (split; [lia|done]). }
  assert (¬ (length (line0 :: line1 :: rest) < 2)%nat) as Hlong by (simpl; lia).
  destruct (int pf (remove_non_digits pf line0)) as [e|cols] eqn:Hcols.
  { apply int_inl in Hcols as ->. split_and!; try done; try (split; [done|lia]). }
  destruct (int pf (remove_non_digits pf line1)) as [e|rows] eqn:Hrows.
  { apply int_inl in Hrows as ->. split_and!; try done; try (split; [done|lia]). }
  simpl. set (n := Z.to_nat rows). set (grid := take n rest).
  destruct (decide (Z.of_nat (length grid) ≠ rows)) as [?|Hlen].
  { split_and!; try done; try (split; [done|lia]). }
  apply dec_stable in Hlen.
  assert (length grid = n) as Hgrid by (unfold n; lia).
  destruct (scan_rows cols grid (seq 0 n) (Scan None ∅ ∅)) as [e|acc] eqn:Hscan.
  - apply scan_rows_inl in Hscan as (r & Hr & Hcase).
    destruct (lookup_lt_is_Some_2 grid r) as [row Hrow]; [lia|].
    rewrite Hrow in Hcase.
    assert (rest !! r = Some row) as Hrest.
    { unfold grid in Hrow. by rewrite lookup_take_lt in Hrow by lia. }
    destruct Hcase as [[-> ?]|(i & ch & -> & ? & ?)].
    + split_and!; try done; try (split; [done|lia]).
      intros r' len cols' ?. simplify_eq. exists line0, row.
      rewrite drop_0. by split_and!.
    + split_and!; try done; try (split; [done|lia]).
      intros ch' r' c' ?. simplify_eq. by rewrite drop_0, Hrest.
  - destruct (scan_start acc); split_and!; try done; split; try done; lia.
Qed.

(** The errors of the reading are those of the reads, and no other error
    of [parse_world] is one of them. *)
Lemma parse_errors_of_reading pf path :
  (parse_world pf path = inl OSError ↔
     read_text pf Utf8Sig path = ReadOSError
     ∨ (read_text pf Utf8Sig path = ReadUnicodeError
        ∧ read_text pf Utf16 path = ReadOSError))
  ∧ (parse_world pf path = inl UnicodeError ↔
       read_text pf Utf8Sig path = ReadUnicodeError
       ∧ read_text pf Utf16 path = ReadUnicodeError).
Proof.
  unfold parse_world, read_world_file.
  destruct (read_text pf Utf8Sig path) as [raw| |]; [|
    destruct (read_text pf Utf16 path) as [raw| |]|]; simpl;
    try naive_solver;
    destruct (parse_lines_errors pf (world_lines raw)) as (_ & _ & _ & _ & ? & ?);
    naive_solver.
Qed.


(** ** Moves and vacuums *)

Lemma length_vacuums_moves plan :
  length plan = (vacuums plan + moves plan)%nat.
Proof.
  unfold vacuums, moves. induction plan as [|a plan IH]; [done|].
  rewrite !filter_cons. destruct (decide (a = Vac)) as [->|?].
  - rewrite decide_False by (by intros ?). simpl. lia.
  - rewrite decide_True by done. simpl. lia.
Qed.

(** When the start cell is clean, each cell cleaned so far has cost a move,
    and so has the dirty cell the agent may be standing on. *)
Lemma plan_moves_lower_bound rows cols blocked start dirty plan t :
  start ∉ dirty →
  apply_plan rows cols blocked (start, dirty) plan = Some t →
  (size (dirty ∖ t.2) + (if decide (t.1 ∈ t.2) then 1 else 0) ≤ moves plan)%nat.
Proof.
  intros Hstart. revert t.
  induction plan as [|a plan IH] using rev_ind; intros t Ht.
  - simpl in Ht. simplify_eq. simpl. rewrite decide_False by done.
    replace (dirty ∖ dirty) with (∅ : gset Coord) by set_solver.
    rewrite size_empty. unfold moves. simpl. lia.
  - rewrite apply_plan_snoc in Ht.
    destruct (apply_plan rows cols blocked (start, dirty) plan) as [u|] eqn:Hu;
      [|done].
    simpl in Ht. specialize (IH u eq_refl).
    destruct (reachable_cell _ _ _ _ _ _ _ Hu) as [_ Hsub].
    unfold moves in *. rewrite filter_app, length_app, filter_cons, filter_nil.
    destruct (apply_action_cases _ _ _ _ _ _ Ht) as [(-> & Hin & ->)|(Hne & -> & _)].
    + rewrite decide_True in IH by done.
      rewrite (decide_False (P := Vac ≠ Vac)) by (intros H; by apply H).
      simpl. rewrite decide_False by set_solver.
      replace (dirty ∖ (u.2 ∖ {[ u.1 ]})) with ({[ u.1 ]} ∪ dirty ∖ u.2).
      * rewrite size_union, size_singleton by set_solver. lia.
      * apply set_eq. intros x. destruct (decide (x = u.1)); set_solver.
    + rewrite (decide_True (P := a ≠ Vac)) by done. simpl.
      repeat case_decide; lia.
Qed.

(** From a clean start cell, cleaning everything takes a move and a
    vacuum for each dirty cell. *)
Lemma cleaning_plan_length rows cols blocked start dirty plan t :
  start ∉ dirty →
  apply_plan rows cols blocked (start, dirty) plan = Some t → t.2 = ∅ →
  (size dirty ≤ moves plan)%nat ∧ (2 * size dirty ≤ length plan)%nat.
Proof.
  intros Hstart Ht Hclean.
  pose proof (plan_moves_lower_bound _ _ _ _ _ _ _ Hstart Ht) as Hmoves.
  pose proof (apply_plan_vacuums _ _ _ _ _ _ Ht) as Hvac.
  rewrite Hclean in Hmoves, Hvac. rewrite size_empty in Hvac. simpl in Hvac.
  rewrite decide_False in Hmoves by set_solver.
  replace (dirty ∖ ∅) with dirty in Hmoves by set_solver.
  rewrite (length_vacuums_moves plan). lia.
Qed.

(** X14.  When the start cell is not dirty, a plan returned by either
    search has at least one move per dirty cell besides its vacuums: at
    least twice as many actions as there are dirty cells. *)
Theorem returned_plan_moves_to_each_cell
    (rows cols : Z) (blocked : gset Coord) (start : Coord) (dirty : gset Coord)
    (plan : list Action) (gen exp : nat) :
  start ∉ dirty →
  depth_first_search rows cols blocked start dirty = Some (Some plan, gen, exp)
  ∨ uniform_cost_search rows cols blocked start dirty
    = Some (Returned (Some plan, gen, exp)) →
  (size dirty ≤ moves plan)%nat ∧ (2 * size dirty ≤ length plan)%nat.
Proof.
  intros Hstart Hret.
  assert (∃ t, apply_plan rows cols blocked (start, dirty) plan = Some t
               ∧ t.2 = ∅) as (t & Ht & Hclean).
  { destruct Hret as [Hdfs|Hucs].
    - destruct (dfs_returns rows cols blocked start dirty) as (r & Hr & Hpost).
      rewrite Hdfs in Hr. simplify_eq. by destruct Hpost.
    - destruct (ucs_returns rows cols blocked start dirty) as (o & Ho & Hpost).
      rewrite Hucs in Ho. simplify_eq. by destruct Hpost. }
  by eapply cleaning_plan_length.
Qed.

Lemma returned_plan_moves_to_each_cell_witness :
  (size ordering_dirt ≤ moves [East; Vac; West; West; Vac])%nat
  ∧ (2 * size ordering_dirt ≤ length [East; Vac; West; West; Vac])%nat.
Proof.
  apply (returned_plan_moves_to_each_cell 1 3 ∅ (0, 1) ordering_dirt _ 10 6).
  - unfold ordering_dirt. set_solver.
  - left. vm_compute. reflexivity.
Defined.

(** ** The command line *)

Lemma lit_depth_first_ne : lit "uniform-cost" ≠ lit "depth-first".
Proof. intros H. vm_compute in H. discriminate. Qed.

Lemma messages_differ : usage_message ≠ unknown_algorithm_message.
Proof. intros H. vm_compute in H. discriminate. Qed.

(** What [main] does once the world is parsed. *)
Lemma main_parsed pf prog algo world_file rows cols blocked start dirty :
  parse_world pf world_file = inr (rows, cols, blocked, start, dirty) →
  main pf [prog; algo; world_file] =
  if decide (algo = lit "depth-first") then
    match depth_first_search rows cols blocked start dirty with
    | Some r => Printed (report r)
    | None => SearchFault
    end
  else if decide (algo = lit "uniform-cost") then
    match uniform_cost_search rows cols blocked start dirty with
    | Some (Returned r) => Printed (report r)
    | _ => SearchFault
    end
  else Exit1 unknown_algorithm_message.
Proof. intros Hparse. unfold main. by rewrite Hparse. Qed.

(** Only the two counter lines are printed when there is no plan, and when
    the plan is empty. *)
Lemma report_counters_only plan gen exp :
  report (plan, gen, exp) = counter_lines gen exp ↔
  plan = None ∨ plan = Some [].
Proof.
  unfold report. split.
  - intros Heq. destruct plan as [[|a p]|]; [by right| |by left].
    apply (f_equal length) in Heq. rewrite length_app in Heq. simpl in Heq. lia.
  - intros [->| ->]; done.
Qed.

(** An empty plan is returned for a world with no dirt, and for no other. *)
Lemma empty_plan_iff_clean rows cols blocked start dirty t :
  apply_plan rows cols blocked (start, dirty) [] = Some t → t.2 = ∅ → dirty = ∅.
Proof. simpl. intros ? ?. by simplify_eq. Qed.

(** X15.  Run on a world file that parses, [main] prints what the search
    named on the command line returns: for [depth-first] the plan of
    [depth_first_search], for [uniform-cost] the plan of
    [uniform_cost_search], one action a line, and after it the two lines
    with that search's counters.  The plan printed cleans everything, and
    for [uniform-cost] no plan that does is shorter.  When the search
    returns no plan the two counter lines are printed alone; they are
    printed alone exactly when the dirt cannot all be cleaned or there is
    no dirt. *)
Theorem main_prints_the_plan
    (pf : platform) (prog algo world_file : str)
    (rows cols : Z) (blocked : gset Coord) (start : Coord) (dirty : gset Coord) :
  parse_world pf world_file = inr (rows, cols, blocked, start, dirty) →
  (algo = lit "depth-first" →
     ∃ plan gen exp,
       depth_first_search rows cols blocked start dirty = Some (plan, gen, exp)
       ∧ main pf [prog; algo; world_file]
         = Printed (match plan with
                    | Some p => token <$> p
                    | None => []
                    end
                    ++ [ lit (pretty gen) ++ lit " nodes generated";
                         lit (pretty exp) ++ lit " nodes expanded" ])
       ∧ (∀ p, plan = Some p →
            ∃ t, apply_plan rows cols blocked (start, dirty) p = Some t
                 ∧ t.2 = ∅)
       ∧ (main pf [prog; algo; world_file]
          = Printed [ lit (pretty gen) ++ lit " nodes generated";
                      lit (pretty exp) ++ lit " nodes expanded" ]
          ↔ ¬ goal_reachable rows cols blocked (start, dirty) ∨ dirty = ∅))
  ∧ (algo = lit "uniform-cost" →
       ∃ plan gen exp,
         uniform_cost_search rows cols blocked start dirty
         = Some (Returned (plan, gen, exp))
         ∧ main pf [prog; algo; world_file]
           = Printed (match plan with
                      | Some p => token <$> p
                      | None => []
                      end
                      ++ [ lit (pretty gen) ++ lit " nodes generated";
                           lit (pretty exp) ++ lit " nodes expanded" ])
         ∧ (∀ p, plan = Some p →
              (∃ t, apply_plan rows cols blocked (start, dirty) p = Some t
                    ∧ t.2 = ∅)
              ∧ ∀ q t, apply_plan rows cols blocked (start, dirty) q = Some t →
                       t.2 = ∅ → (length p ≤ length q)%nat)
         ∧ (main pf [prog; algo; world_file]
            = Printed [ lit (pretty gen) ++ lit " nodes generated";
                        lit (pretty exp) ++ lit " nodes expanded" ]
            ↔ ¬ goal_reachable rows cols blocked (start, dirty) ∨ dirty = ∅)).
Proof.
  intros Hparse. rewrite (main_parsed _ _ _ _ _ _ _ _ _ Hparse). split.
  - intros ->. rewrite decide_True by done.
    destruct (dfs_returns rows cols blocked start dirty) as (r & Hr & Hpost).
    rewrite Hr. destruct r as [[plan gen] exp]. exists plan, gen, exp.
    split_and!; [done..| |].
    + intros p ->. by destruct Hpost.
    + change [lit (pretty gen) ++ lit " nodes generated";
              lit (pretty exp) ++ lit " nodes expanded"]
        with (counter_lines gen exp).
      split.
      * intros Heq. assert (report (plan, gen, exp) = counter_lines gen exp)
          as Hrep by congruence.
        apply report_counters_only in Hrep as [->| ->]; simpl in Hpost.
        -- left. by destruct Hpost.
        -- right. destruct Hpost as [(t & Ht & Hclean) _].
           by eapply empty_plan_iff_clean.
      * intros Hcase. f_equal. apply report_counters_only.
        destruct Hcase as [Hno| ->].
        -- destruct plan as [p|]; [|by left]. simpl in Hpost.
           destruct Hpost as [(t & Ht & Hclean) _].
           exfalso. apply Hno. by exists p, t.
        -- right. rewrite dfs_clean_start in Hr. by simplify_eq.
  - intros ->. rewrite decide_False by apply lit_depth_first_ne.
    rewrite decide_True by done.
    destruct (ucs_returns rows cols blocked start dirty) as (o & Ho & Hpost).
    rewrite Ho. destruct o as [[[plan gen] exp]|]; [|done].
    exists plan, gen, exp. split_and!; [done..| |].
    + intros p ->. simpl in Hpost. destruct Hpost as (? & ? & _). by split.
    + change [lit (pretty gen) ++ lit " nodes generated";
              lit (pretty exp) ++ lit " nodes expanded"]
        with (counter_lines gen exp).
      split.
      * intros Heq. assert (report (plan, gen, exp) = counter_lines gen exp)
          as Hrep by congruence.
        apply report_counters_only in Hrep as [->| ->]; simpl in Hpost.
        -- left. by destruct Hpost.
        -- right. destruct Hpost as ((t & Ht & Hclean) & _).
           by eapply empty_plan_iff_clean.
      * intros Hcase. f_equal. apply report_counters_only.
        destruct Hcase as [Hno| ->].
        -- destruct plan as [p|]; [|by left]. simpl in Hpost.
           destruct Hpost as ((t & Ht & Hclean) & _).
           exfalso. apply Hno. by exists p, t.
        -- right. rewrite ucs_clean_start in Ho. by simplify_eq.
Qed.

Lemma main_prints_the_plan_witness :
  main example_platform [lit "planner.py"; lit "uniform-cost"; lit "world.txt"]
  = Printed [ lit "E"; lit "V"; lit "W"; lit "W"; lit "V";
              lit "11 nodes generated"; lit "10 nodes expanded" ]
  ∧ main example_platform [lit "planner.py"; lit "depth-first"; lit "utf16.txt"]
    = Printed [ lit "E"; lit "V"; lit "W"; lit "W"; lit "V";
                lit "10 nodes generated"; lit "6 nodes expanded" ].
Proof.
  split.
  - destruct (main_prints_the_plan example_platform (lit "planner.py")
                (lit "uniform-cost") (lit "world.txt") 1 3 ∅ (0, 1) ordering_dirt)
      as [_ Hucs]; [vm_compute; reflexivity|].
    destruct (Hucs eq_refl) as (plan & gen & exp & Hsearch & -> & _).
    vm_compute in Hsearch. by simplify_eq.
  - destruct (main_prints_the_plan example_platform (lit "planner.py")
                (lit "depth-first") (lit "utf16.txt") 1 3 ∅ (0, 1) ordering_dirt)
      as [Hdfs _]; [vm_compute; reflexivity|].
    destruct (Hdfs eq_refl) as (plan & gen & exp & Hsearch & -> & _).
    vm_compute in Hsearch. by simplify_eq.
Defined.

(** X16.  [main] ends in one of these ways only.  It exits with the usage
    message exactly when it is not given two arguments.  Given two, it
    lets whatever [parse_world] raises through, whatever the algorithm
    name is: an [OSError] when the file cannot be opened or read, a
    [UnicodeError] when it decodes neither as UTF-8 nor as UTF-16, the
    errors of a malformed world otherwise.  It exits with the
    unknown-algorithm message exactly when the world parses and the name
    is neither of the two.  Otherwise it prints; the searches never fail
    under it. *)
Theorem main_ends_well (pf : platform) (argv : list str) :
  main pf argv ≠ SearchFault
  ∧ (length argv ≠ 3%nat ↔ main pf argv = Exit1 usage_message)
  ∧ (∀ e, main pf argv = Raised e ↔
          ∃ prog algo world_file,
            argv = [prog; algo; world_file]
            ∧ parse_world pf world_file = inl e)
  ∧ (main pf argv = Raised OSError ↔
     ∃ prog algo world_file,
       argv = [prog; algo; world_file]
       ∧ (read_text pf Utf8Sig world_file = ReadOSError
          ∨ (read_text pf Utf8Sig world_file = ReadUnicodeError
             ∧ read_text pf Utf16 world_file = ReadOSError)))
  ∧ (main pf argv = Raised UnicodeError ↔
     ∃ prog algo world_file,
       argv = [prog; algo; world_file]
       ∧ read_text pf Utf8Sig world_file = ReadUnicodeError
       ∧ read_text pf Utf16 world_file = ReadUnicodeError)
  ∧ (main pf argv = Exit1 unknown_algorithm_message ↔
     ∃ prog algo world_file w,
       argv = [prog; algo; world_file]
       ∧ parse_world pf world_file = inr w
       ∧ algo ≠ lit "depth-first" ∧ algo ≠ lit "uniform-cost")
  ∧ (∀ out, main pf argv = Printed out ↔
       ∃ prog algo world_file rows cols blocked start dirty,
         argv = [prog; algo; world_file]
         ∧ parse_world pf world_file = inr (rows, cols, blocked, start, dirty)
         ∧ ((algo = lit "depth-first"
             ∧ ∃ r, depth_first_search rows cols blocked start dirty = Some r
                    ∧ out = report r)
            ∨ (algo = lit "uniform-cost"
               ∧ ∃ r, uniform_cost_search rows cols blocked start dirty
                      = Some (Returned r)
                      ∧ out = report r))).
Proof.
  pose proof messages_differ as Hmsg. pose proof lit_depth_first_ne as Hname.
  destruct argv as [|prog [|algo [|world_file [|extra argv]]]];
    try (unfold main; split_and!; [done|split; [done|simpl; lia]|naive_solver..]).
  assert (∀ e, parse_world pf world_file = inl e →
            (e = OSError ↔
               read_text pf Utf8Sig world_file = ReadOSError
               ∨ (read_text pf Utf8Sig world_file = ReadUnicodeError
                  ∧ read_text pf Utf16 world_file = ReadOSError))
            ∧ (e = UnicodeError ↔
                 read_text pf Utf8Sig world_file = ReadUnicodeError
                 ∧ read_text pf Utf16 world_file = ReadUnicodeError)) as Hread.
  { intros e He.
    destruct (parse_errors_of_reading pf world_file) as [Hos Huni].
    rewrite <- Hos, <- Huni, He. naive_solver. }
  assert (∀ w, parse_world pf world_file = inr w →
            ¬ (read_text pf Utf8Sig world_file = ReadOSError
               ∨ (read_text pf Utf8Sig world_file = ReadUnicodeError
                  ∧ read_text pf Utf16 world_file = ReadOSError))
            ∧ ¬ (read_text pf Utf8Sig world_file = ReadUnicodeError
                 ∧ read_text pf Utf16 world_file = ReadUnicodeError)) as Hread'.
  { intros w Hw.
    destruct (parse_errors_of_reading pf world_file) as [Hos Huni].
    rewrite <- Hos, <- Huni, Hw. naive_solver. }
  destruct (parse_world pf world_file)
    as [e|[[[[rows cols] blocked] start] dirty]] eqn:Hparse.
  { destruct (Hread e eq_refl) as [Hos Huni]. unfold main. rewrite Hparse.
    split_and!; [done|split; [done|done]|naive_solver congruence..]. }
  destruct (Hread' _ eq_refl) as [Hos Huni].
  rewrite (main_parsed _ _ _ _ _ _ _ _ _ Hparse).
  destruct (dfs_returns rows cols blocked start dirty) as (r & Hdfs & _).
  destruct (ucs_returns rows cols blocked start dirty) as (o & Hucs & Hpost).
  destruct o as [r'|]; [|done]. rewrite Hdfs, Hucs.
  destruct (decide (algo = lit "depth-first")) as [->|Hd];
    [|destruct (decide (algo = lit "uniform-cost")) as [->|Hu]];
    (split_and!; [done|split; [done|done]|naive_solver congruence..]).
Qed.

(** ** From the file to the plan *)

(** X17.  For every world that [parse_world] returns, the searches work on
    a valid state space: no sequence of actions takes the agent off the
    grid or onto a blocked cell, and since the start cell is never dirty,
    a plan returned by either search has at least two actions for each
    dirty cell. *)
Theorem parsed_world_plans
    (pf : platform) (path : str)
    (rows cols : Z) (blocked : gset Coord) (start : Coord) (dirty : gset Coord) :
  parse_world pf path = inr (rows, cols, blocked, start, dirty) →
  (∀ plan t, apply_plan rows cols blocked (start, dirty) plan = Some t →
     in_bounds rows cols t.1 ∧ (t.1 ∉ blocked) ∧ t.2 ⊆ dirty)
  ∧ (∀ plan gen exp,
       depth_first_search rows cols blocked start dirty
       = Some (Some plan, gen, exp)
       ∨ uniform_cost_search rows cols blocked start dirty
         = Some (Returned (Some plan, gen, exp)) →
       (2 * size dirty ≤ length plan)%nat).
Proof.
  intros Hparse. apply parse_world_inr in Hparse as (raw & _ & Hparse).
  apply parse_lines_valid in Hparse.
  destruct Hparse as (_ & _ & Hin & Hfree & Hclean & _). split.
  - intros plan t Ht.
    destruct (reachable_cell _ _ _ _ _ _ _ Ht) as [[->|[? ?]] ?]; done.
  - intros plan gen exp Hret.
    assert (∃ t, apply_plan rows cols blocked (start, dirty) plan = Some t
                 ∧ t.2 = ∅) as (t & Ht & Hgoal).
    { destruct Hret as [Hdfs|Hucs].
      - destruct (dfs_returns rows cols blocked start dirty) as (r & Hr & Hpost).
        rewrite Hdfs in Hr. simplify_eq. by destruct Hpost.
      - destruct (ucs_returns rows cols blocked start dirty) as (o & Ho & Hpost).
        rewrite Hucs in Ho. simplify_eq. by destruct Hpost. }
    by eapply cleaning_plan_length.
Qed.

Lemma parsed_world_plans_witness :
  (∀ plan t, apply_plan 1 3 ∅ ((0, 1), ordering_dirt) plan = Some t →
     in_bounds 1 3 t.1 ∧ (t.1 ∉ (∅ : gset Coord)) ∧ t.2 ⊆ ordering_dirt)
  ∧ (∀ plan gen exp,
       depth_first_search 1 3 ∅ (0, 1) ordering_dirt
       = Some (Some plan, gen, exp)
       ∨ uniform_cost_search 1 3 ∅ (0, 1) ordering_dirt
         = Some (Returned (Some plan, gen, exp)) →
       (2 * size ordering_dirt ≤ length plan)%nat).
Proof.
  apply (parsed_world_plans example_platform (lit "world.txt")).
  vm_compute. reflexivity.
Defined.
